(** * Verification model of [align_vtt_vtt_llm.py] (turboscribe)

    Shallow embedding of the alignment engine: timeline parsers,
    interval overlap, candidate resolver, smart fallback, arbitration
    oracle adapter, segment splitter and the alignment loop.

    Modelling conventions:
    - Python [float] values are modelled as exact rationals [Q].
    - Python [str] values are modelled as lists of ASCII characters.
    - Python exceptions escaping a function are modelled by [None].
    - Regular expressions are modelled by list-of-successes parsers whose
      result lists follow the backtracking priority of Python's [re]
      (greedy quantifiers try the longest run first, lazy ones the
      shortest), so the head of the list is the match [re] returns. *)

From Stdlib Require Import Ascii String.
From Stdlib Require Import List Bool Arith Lia ZArith QArith Lqa
  Qminmax Qabs Qround Sorted Permutation.
Import ListNotations.

Open Scope nat_scope.
Open Scope list_scope.

(* ------------------------------------------------------------------ *)
(** ** Strings *)

Definition str := list ascii.

(** String literal as a character list. *)
Definition S_ (s : string) : str := list_ascii_of_string s.

Definition ascii_eqb (a b : ascii) : bool :=
  Nat.eqb (nat_of_ascii a) (nat_of_ascii b).

Fixpoint str_eqb (a b : str) : bool :=
  match a, b with
  | [], [] => true
  | x :: a', y :: b' => ascii_eqb x y && str_eqb a' b'
  | _, _ => false
  end.

(** [str.isspace] / regex [\s] restricted to ASCII:
    \t \n \v \f \r, \x1c-\x1f and space. *)
Definition is_space (c : ascii) : bool :=
  let n := nat_of_ascii c in
  ((9 <=? n) && (n <=? 13)) || ((28 <=? n) && (n <=? 32)).

(** Regex [\d] / [str.isdigit] on one ASCII character. *)
Definition is_digit (c : ascii) : bool :=
  let n := nat_of_ascii c in (48 <=? n) && (n <=? 57).

Definition is_newline (c : ascii) : bool := ascii_eqb c "010"%char.

Definition lstrip (s : str) : str :=
  (fix go (s : str) := match s with
                       | c :: t => if is_space c then go t else s
                       | [] => [] end) s.

Definition rstrip (s : str) : str := rev (lstrip (rev s)).

(** [s.strip()] *)
Definition strip (s : str) : str := rstrip (lstrip s).

(** [s.isdigit()]: non-empty and all digits. *)
Definition isdigit (s : str) : bool :=
  match s with [] => false | _ => forallb is_digit s end.

(** [s.split(sep)] for a one-character separator. *)
Fixpoint split_on (sep : ascii) (s : str) : list str :=
  match s with
  | [] => [[]]
  | c :: t =>
      if ascii_eqb c sep then [] :: split_on sep t
      else match split_on sep t with
           | w :: ws => (c :: w) :: ws
           | [] => [[c]]
           end
  end.

Fixpoint is_prefix (p s : str) : bool :=
  match p, s with
  | [], _ => true
  | x :: p', y :: s' => ascii_eqb x y && is_prefix p' s'
  | _, [] => false
  end.

(** [p in s] for strings. *)
Fixpoint contains (p s : str) : bool :=
  is_prefix p s || match s with [] => false | _ :: t => contains p t end.

(** [sep.join(xs)] *)
Fixpoint join (sep : str) (xs : list str) : str :=
  match xs with
  | [] => []
  | [x] => x
  | x :: xs' => x ++ sep ++ join sep xs'
  end.

(** [s[i:j]] for 0 <= i <= j. *)
Definition slice (s : str) (i j : nat) : str := firstn (j - i) (skipn i s).

(* ------------------------------------------------------------------ *)
(** ** Regular expressions as list-of-successes parsers *)

Definition Parser (A : Type) := str -> list (A * str).

Definition p_ret {A} (a : A) : Parser A := fun s => [(a, s)].

Definition p_bind {A B} (p : Parser A) (f : A -> Parser B) : Parser B :=
  fun s => flat_map (fun r => f (fst r) (snd r)) (p s).

Definition p_alt {A} (p q : Parser A) : Parser A := fun s => p s ++ q s.

Notation "x <- p ;; k" := (p_bind p (fun x => k))
  (at level 61, p at next level, right associativity).

(** One character of a class. *)
Definition p_sat (f : ascii -> bool) : Parser ascii :=
  fun s => match s with
           | c :: t => if f c then [(c, t)] else []
           | [] => []
           end.

(** A literal. *)
Fixpoint p_lit (w : str) : Parser unit :=
  match w with
  | [] => p_ret tt
  | c :: w' => _ <- p_sat (ascii_eqb c) ;; p_lit w'
  end.

Fixpoint run_len (f : ascii -> bool) (s : str) : nat :=
  match s with c :: t => if f c then S (run_len f t) else 0 | [] => 0 end.

(** Greedy [C*] for a character class [C]: longest run first. *)
Definition p_star (f : ascii -> bool) : Parser str :=
  fun s => map (fun k => (firstn k s, skipn k s)) (rev (seq 0 (S (run_len f s)))).

(** Lazy [C*?]: shortest run first. *)
Definition p_star_lazy (f : ascii -> bool) : Parser str :=
  fun s => map (fun k => (firstn k s, skipn k s)) (seq 0 (S (run_len f s))).

(** Greedy [C+]. *)
Definition p_plus (f : ascii -> bool) : Parser str :=
  c <- p_sat f ;; cs <- p_star f ;; p_ret (c :: cs).

(** Greedy [X?]. *)
Definition p_opt {A} (p : Parser A) : Parser (option A) :=
  p_alt (a <- p ;; p_ret (Some a)) (p_ret None).

(** [$] without MULTILINE: end of input, or just before a final newline. *)
Definition p_eol : Parser unit :=
  fun s => match s with
           | [] => [(tt, s)]
           | [c] => if is_newline c then [(tt, s)] else []
           | _ => []
           end.

(** [re.match]: the first match anchored at position 0. *)
Definition re_match {A} (p : Parser A) (s : str) : option (A * str) :=
  hd_error (p s).

(** [re.search] from a position: (start, value, rest). *)
Fixpoint search_from {A} (p : Parser A) (s : str) (i : nat)
  : option (nat * A * str) :=
  match p s with
  | r :: _ => Some (i, fst r, snd r)
  | [] => match s with [] => None | _ :: t => search_from p t (S i) end
  end.

Definition re_search {A} (p : Parser A) (s : str) : option (nat * A * str) :=
  search_from p s 0.

(** [re.finditer]: successive non-overlapping matches as
    (start, end, value), positions absolute.  The patterns of the program
    never match the empty string. *)
Fixpoint finditer_aux {A} (p : Parser A) (fuel : nat) (s : str) (off : nat)
  : list (nat * nat * A) :=
  match fuel with
  | 0 => []
  | S fuel' =>
      match search_from p s 0 with
      | None => []
      | Some (i, a, rest) =>
          let j := length s - length rest in
          (off + i, off + j, a) :: finditer_aux p fuel' rest (off + j)
      end
  end.

Definition finditer {A} (p : Parser A) (s : str) : list (nat * nat * A) :=
  finditer_aux p (S (length s)) s 0.

(** [re.split] for a pattern without groups. *)
Definition re_split (p : Parser unit) (s : str) : list str :=
  let ms := finditer p s in
  let fix go (ms : list (nat * nat * unit)) (last : nat) :=
    match ms with
    | [] => [skipn last s]
    | (i, j, _) :: ms' => slice s last i :: go ms' j
    end in
  go ms 0.

(** [re.split] for a pattern with one group: pieces and captured
    delimiters alternate. *)
Definition re_split_group (p : Parser str) (s : str) : list str :=
  let ms := finditer p s in
  let fix go (ms : list (nat * nat * str)) (last : nat) :=
    match ms with
    | [] => [skipn last s]
    | (i, j, g) :: ms' => slice s last i :: g :: go ms' j
    end in
  go ms 0.

(** [re.sub(pattern, '', s)]. *)
Definition re_sub_empty {A} (p : Parser A) (s : str) : str :=
  let ms := finditer p s in
  let fix go (ms : list (nat * nat * A)) (last : nat) :=
    match ms with
    | [] => skipn last s
    | (i, j, _) :: ms' => slice s last i ++ go ms' j
    end in
  go ms 0.

(** Exactly [n] characters of a class ([C{n}]). *)
Fixpoint p_count (n : nat) (f : ascii -> bool) : Parser str :=
  match n with
  | 0 => p_ret []
  | S n' => c <- p_sat f ;; cs <- p_count n' f ;; p_ret (c :: cs)
  end.

(** A capture group: the text consumed by [p]. *)
Definition p_group {A} (p : Parser A) : Parser str :=
  fun s => map (fun r => (firstn (List.length s - List.length (snd r)) s, snd r)) (p s).

(* ------------------------------------------------------------------ *)
(** ** Python number conversions *)

Fixpoint digits_val (acc : Z) (s : str) : Z :=
  match s with
  | [] => acc
  | c :: t => digits_val (acc * 10 + Z.of_nat (nat_of_ascii c - 48))%Z t
  end.

(** [int(s)] on decimal digit strings (surrounding whitespace allowed);
    [None] is the [ValueError].  Signs and underscores are not modelled:
    the program only passes runs matched by [\d]. *)
Definition py_int (s : str) : option Z :=
  let t := strip s in if isdigit t then Some (digits_val 0 t) else None.

(** [float(s)] on [d+], [d+.d*] and [.d+] forms; [None] is the
    [ValueError]. *)
Definition py_float (s : str) : option Q :=
  let t := strip s in
  let ip := firstn (run_len is_digit t) t in
  let rest := skipn (run_len is_digit t) t in
  match rest with
  | [] => if isdigit ip then Some (inject_Z (digits_val 0 ip)) else None
  | c :: fp =>
      if ascii_eqb c "." && forallb is_digit fp
         && (negb (Nat.eqb (List.length ip) 0) || negb (Nat.eqb (List.length fp) 0))
      then Some (inject_Z (digits_val 0 ip)
                 + inject_Z (digits_val 0 fp) / inject_Z (10 ^ Z.of_nat (List.length fp)))%Q
      else None
  end.

(* ------------------------------------------------------------------ *)
(** ** Data model *)

(** [VTTSegment] *)
Record VTTSegment := mkVTTSegment {
  start : Q;
  end_ : Q;
  speaker : str;
  text : str
}.

(* ------------------------------------------------------------------ *)
(** ** Timeline parser *)

Definition colon : ascii := ":"%char.
Definition newline : ascii := "010"%char.

(** [parse_timestamp] *)
Definition parse_timestamp (ts : str) : option Q :=
  match split_on colon ts with
  | [h; m; s] =>
      match py_int h, py_int m, py_float s with
      | Some h', Some m', Some s' =>
          Some (inject_Z (h' * 3600 + m' * 60)%Z + s')%Q
      | _, _, _ => None
      end
  | _ => Some 0%Q
  end.

(** Regex [\d{2}:\d{2}:\d{2}\.\d{3}]. *)
Definition p_vtt_time : Parser unit :=
  _ <- p_count 2 is_digit ;; _ <- p_lit (S_ ":") ;;
  _ <- p_count 2 is_digit ;; _ <- p_lit (S_ ":") ;;
  _ <- p_count 2 is_digit ;; _ <- p_lit (S_ ".") ;;
  _ <- p_count 3 is_digit ;; p_ret tt.

(** Regex [(\d{2}:\d{2}:\d{2}\.\d{3})\s*-->\s*(\d{2}:\d{2}:\d{2}\.\d{3})]. *)
Definition p_cue_timing : Parser (str * str) :=
  g1 <- p_group p_vtt_time ;; _ <- p_star is_space ;; _ <- p_lit (S_ "-->") ;;
  _ <- p_star is_space ;; g2 <- p_group p_vtt_time ;; p_ret (g1, g2).

(** Regex [\n\n+]. *)
Definition p_blank_lines : Parser unit :=
  _ <- p_lit [newline] ;; _ <- p_plus is_newline ;; p_ret tt.

(** The line scan shared by both block parsers: the last line containing
    [-->] is the timestamp line; other non-blank lines that are not a bare
    cue number are stripped text lines. *)
Definition scan_lines (lines : list str) : option str * list str :=
  fold_left
    (fun acc line =>
       let '(timestamp_line, text_lines) := acc in
       if contains (S_ "-->") line then (Some line, text_lines)
       else if negb (Nat.eqb (List.length (strip line)) 0)
               && negb (isdigit (strip line))
       then (timestamp_line, text_lines ++ [strip line])
       else (timestamp_line, text_lines))
    lines (None, []).

(** The cue blocks of a file: [re.split(r'\n\n+', content)] without the
    blank ones and the [WEBVTT] header. *)
Definition cue_blocks (content : str) : list str :=
  filter (fun block => negb (Nat.eqb (List.length (strip block)) 0)
                       && negb (str_eqb (strip block) (S_ "WEBVTT")))
         (re_split p_blank_lines content).

(** Timing and text lines of one block, when the block is a well-formed
    cue ([None] for the [continue] cases). *)
Definition parse_cue (block : str) : option (Q * Q * list str) :=
  let lines := split_on newline (strip block) in
  match scan_lines lines with
  | (Some timestamp_line, ((_ :: _) as text_lines)) =>
      match re_search p_cue_timing timestamp_line with
      | None => None
      | Some (_, (g1, g2), _) =>
          match parse_timestamp g1, parse_timestamp g2 with
          | Some st, Some en => Some (st, en, text_lines)
          | _, _ => None
          end
      end
  | _ => None
  end.

(** The source's regex: [^([^:]+):], then [\s*], then group 2 [.*]
    and [$]; yields group 1. *)
Definition p_speaker_prefix : Parser str :=
  g1 <- p_group (p_plus (fun c => negb (ascii_eqb c colon))) ;;
  _ <- p_lit [colon] ;; _ <- p_star is_space ;;
  _ <- p_star (fun c => negb (is_newline c)) ;; _ <- p_eol ;; p_ret g1.

(** Speaker of a cue of the speaker-labeled timeline. *)
Definition cue_speaker (first_line : str) : str :=
  match re_match p_speaker_prefix first_line with
  | Some (g1, _) => strip g1
  | None => S_ "Unknown"
  end.

(** [parse_vtt_with_speakers] applied to the file's content. *)
Definition parse_vtt_with_speakers (content : str) : list VTTSegment :=
  flat_map
    (fun block =>
       match parse_cue block with
       | Some (st, en, text_lines) =>
           [mkVTTSegment st en (cue_speaker (hd [] text_lines)) []]
       | None => []
       end)
    (cue_blocks content).

(** Regex [\d{1,2}] as a group (two digits tried first). *)
Definition p_d12 : Parser str :=
  p_group (p_alt (p_count 2 is_digit) (p_count 1 is_digit)).

(** Regex [(\d{1,2}):(\d{2}):?(\d{2})?]: three groups. *)
Definition p_tb_time : Parser (str * str * option str) :=
  a <- p_d12 ;; _ <- p_lit [colon] ;; b <- p_count 2 is_digit ;;
  _ <- p_opt (p_lit [colon]) ;; c <- p_opt (p_count 2 is_digit) ;;
  p_ret (a, b, c).

(** The TurboScribe marker regex
    [\[Speaker\s+(\d+)\]\s*\(] time [\s*-\s*] time [\)]. *)
Definition p_tb_marker : Parser (str * (str * str * option str) * (str * str * option str)) :=
  _ <- p_lit (S_ "[Speaker") ;; _ <- p_plus is_space ;;
  n <- p_plus is_digit ;; _ <- p_lit (S_ "]") ;; _ <- p_star is_space ;;
  _ <- p_lit (S_ "(") ;; st <- p_tb_time ;;
  _ <- p_star is_space ;; _ <- p_lit (S_ "-") ;; _ <- p_star is_space ;;
  en <- p_tb_time ;; _ <- p_lit (S_ ")") ;; p_ret (n, st, en).

(** Python truthiness of an optional group. *)
Definition group_truthy (g : option str) : bool :=
  match g with Some (_ :: _) => true | _ => false end.

(** Seconds of one TurboScribe time from its three groups
    ([start_h], [start_m], [start_s] in the source). *)
Definition tb_seconds (g_a g_b : str) (g_c : option str) : option Z :=
  let h := if group_truthy g_c then py_int g_a else Some 0%Z in
  let m := if group_truthy g_c then py_int g_b else py_int g_a in
  let s := if group_truthy g_c
           then match g_c with Some c => py_int c | None => None end
           else py_int g_b in
  match h, m, s with
  | Some h, Some m, Some s => Some (h * 3600 + m * 60 + s)%Z
  | _, _, _ => None
  end.

(** Regex [\(This file is longer than.*?\)] with DOTALL. *)
Definition p_longer_note : Parser unit :=
  _ <- p_lit (S_ "(This file is longer than") ;;
  _ <- p_star_lazy (fun _ => true) ;; _ <- p_lit (S_ ")") ;; p_ret tt.

(** [parse_turboscribe_format] applied to the file's content; [None] is an
    exception. *)
Definition parse_turboscribe_format (content : str) : option (list VTTSegment) :=
  let matches := finditer p_tb_marker content in
  let fix go (ms : list (nat * nat * (str * (str * str * option str) * (str * str * option str))))
      : option (list VTTSegment) :=
    match ms with
    | [] => Some []
    | (_, m_end, (_, (a1, b1, c1), (a2, b2, c2))) :: ms' =>
        match tb_seconds a1 b1 c1, tb_seconds a2 b2 c2 with
        | Some st, Some en =>
            let text_end := match ms' with
                            | (nxt, _, _) :: _ => nxt
                            | [] => List.length content
                            end in
            let t := strip (slice content m_end text_end) in
            let t := strip (re_sub_empty p_longer_note t) in
            match go ms' with
            | Some rest =>
                Some (match t with
                      | [] => rest
                      | _ => mkVTTSegment (inject_Z st) (inject_Z en) [] t :: rest
                      end)
            | None => None
            end
        | _, _ => None
        end
    end in
  go matches.

(** Regex [\[Speaker\s+\d+\]\s*\(\d{1,2}:\d{2}]. *)
Definition p_tb_detect : Parser unit :=
  _ <- p_lit (S_ "[Speaker") ;; _ <- p_plus is_space ;;
  _ <- p_plus is_digit ;; _ <- p_lit (S_ "]") ;; _ <- p_star is_space ;;
  _ <- p_lit (S_ "(") ;; _ <- p_d12 ;; _ <- p_lit [colon] ;;
  _ <- p_count 2 is_digit ;; p_ret tt.

Inductive vtt_format := turboscribe | standard.

Fixpoint ends_with (suffix s : str) : bool :=
  str_eqb suffix s || match s with [] => false | _ :: t => ends_with suffix t end.

(** [detect_vtt_format]: looks at the first 1000 characters. *)
Definition detect_vtt_format (filepath content : str) : vtt_format :=
  let c := firstn 1000 content in
  if contains (S_ "[Speaker") c
     && match re_search p_tb_detect c with Some _ => true | None => false end
  then turboscribe
  else if contains (S_ "WEBVTT") c || contains (S_ "-->") c then standard
  else if ends_with (S_ ".txt") filepath && contains (S_ "[Speaker") c
  then turboscribe
  else standard.

(** The source's regex: [^\[SPEAKER_\d+\]\s*], then group 1 [.*] and [$];
    yields group 1. *)
Definition p_speaker_tag : Parser str :=
  _ <- p_lit (S_ "[SPEAKER_") ;; _ <- p_plus is_digit ;; _ <- p_lit (S_ "]") ;;
  _ <- p_star is_space ;;
  g1 <- p_group (p_star (fun c => negb (is_newline c))) ;; _ <- p_eol ;; p_ret g1.

(** Text of a cue of the text-reliable timeline. *)
Definition cue_text (text_lines : list str) : str :=
  let full_text := strip (join (S_ " ") text_lines) in
  match re_match p_speaker_tag full_text with
  | Some (g1, _) => strip g1
  | None => full_text
  end.

(** [parse_vtt_without_speakers] applied to the file's path and content. *)
Definition parse_vtt_without_speakers (filepath content : str)
  : option (list VTTSegment) :=
  match detect_vtt_format filepath content with
  | turboscribe => parse_turboscribe_format content
  | standard =>
      Some (flat_map
              (fun block =>
                 match parse_cue block with
                 | Some (st, en, text_lines) =>
                     [mkVTTSegment st en [] (cue_text text_lines)]
                 | None => []
                 end)
              (cue_blocks content))
  end.

(* ------------------------------------------------------------------ *)
(** ** Interval overlap engine *)

Open Scope Q_scope.

(** [calculate_overlap] *)
Definition calculate_overlap (seg1_start seg1_end seg2_start seg2_end : Q) : Q :=
  let overlap_start := Qmax seg1_start seg2_start in
  let overlap_end := Qmin seg1_end seg2_end in
  Qmax 0 (overlap_end - overlap_start).

Close Scope Q_scope.

Open Scope Q_scope.

Definition Qltb (a b : Q) : bool := negb (Qle_bool b a).

(* ------------------------------------------------------------------ *)
(** ** Candidate resolver *)

(** The per-segment dicts built in the first loop of
    [find_speaker_candidates]. *)
Record RawCandidate := mkRawCandidate {
  rc_speaker : str;
  rc_overlap_duration : Q;
  rc_overlap_ratio : Q;
  rc_confidence_multiplier : Q;
  rc_used_tolerance : bool;
  rc_speaker_start : Q;
  rc_speaker_end : Q
}.

(** The per-speaker dicts of [speaker_totals], returned by
    [find_speaker_candidates]. *)
Record Candidate := mkCandidate {
  c_speaker : str;
  c_overlap_duration : Q;
  c_overlap_ratio : Q;
  c_confidence_multiplier : Q;
  c_used_tolerance : bool
}.

(** One iteration of the first loop of [find_speaker_candidates]. *)
Definition raw_candidate (text_seg : VTTSegment) (tolerance : Q)
    (spk_seg : VTTSegment) : option RawCandidate :=
  let text_duration := end_ text_seg - start text_seg in
  let strict_overlap :=
    calculate_overlap (start spk_seg) (end_ spk_seg) (start text_seg) (end_ text_seg) in
  if Qltb 0 tolerance && Qeq_bool strict_overlap 0 then
    let expanded_start := start spk_seg - tolerance in
    let expanded_end := end_ spk_seg + tolerance in
    let tolerant_overlap :=
      calculate_overlap expanded_start expanded_end (start text_seg) (end_ text_seg) in
    if Qltb 0 tolerant_overlap then
      let overlap_ratio :=
        if Qltb 0 text_duration then tolerant_overlap / text_duration else 0 in
      let gap := Qmin (Qabs (end_ spk_seg - start text_seg))
                      (Qabs (end_ text_seg - start spk_seg)) in
      let penalty := Qmax (85 # 100) (1 - (gap / (tolerance * 2)) * (15 # 100)) in
      Some (mkRawCandidate (speaker spk_seg) tolerant_overlap overlap_ratio penalty
              true (start spk_seg) (end_ spk_seg))
    else None
  else if Qltb 0 strict_overlap then
    let overlap_ratio :=
      if Qltb 0 text_duration then strict_overlap / text_duration else 0 in
    Some (mkRawCandidate (speaker spk_seg) strict_overlap overlap_ratio 1
            false (start spk_seg) (end_ spk_seg))
  else None.

(** [sorted(..., key=key, reverse=True)]: a stable sort, descending;
    [x] goes before the first element whose key is not larger. *)
Fixpoint insert_desc {A} (key : A -> Q) (x : A) (l : list A) : list A :=
  match l with
  | [] => [x]
  | y :: l' => if Qle_bool (key y) (key x) then x :: l else y :: insert_desc key x l'
  end.

Fixpoint sort_desc {A} (key : A -> Q) (l : list A) : list A :=
  match l with
  | [] => []
  | x :: l' => insert_desc key x (sort_desc key l')
  end.

(** [speaker_totals[spk]['overlap_duration'] += ...], creating the entry
    at the end of the (insertion-ordered) dict when absent. *)
Fixpoint add_to_totals (c : RawCandidate) (totals : list Candidate) : list Candidate :=
  match totals with
  | [] => [mkCandidate (rc_speaker c) (0 + rc_overlap_duration c) 0
             (rc_confidence_multiplier c) (rc_used_tolerance c)]
  | e :: totals' =>
      if str_eqb (c_speaker e) (rc_speaker c)
      then mkCandidate (c_speaker e) (c_overlap_duration e + rc_overlap_duration c)
             (c_overlap_ratio e) (c_confidence_multiplier e) (c_used_tolerance e)
           :: totals'
      else e :: add_to_totals c totals'
  end.

Definition speaker_totals (raw : list RawCandidate) : list Candidate :=
  fold_left (fun d c => add_to_totals c d) raw [].

(** The ratio recalculation loop: an unguarded division, [None] being the
    [ZeroDivisionError]. *)
Definition recalculate_ratios (text_duration : Q) (totals : list Candidate)
  : option (list Candidate) :=
  match totals with
  | [] => Some []
  | _ =>
      if Qeq_bool text_duration 0 then None
      else Some (map (fun e => mkCandidate (c_speaker e) (c_overlap_duration e)
                                 (c_overlap_duration e / text_duration)
                                 (c_confidence_multiplier e) (c_used_tolerance e))
                     totals)
  end.

Definition raw_candidates (text_seg : VTTSegment) (speaker_segs : list VTTSegment)
    (tolerance : Q) : list RawCandidate :=
  flat_map (fun s => match raw_candidate text_seg tolerance s with
                     | Some c => [c] | None => [] end) speaker_segs.

(** [find_speaker_candidates] *)
Definition find_speaker_candidates (text_seg : VTTSegment)
    (speaker_segs : list VTTSegment) (tolerance : Q) : option (list Candidate) :=
  let text_duration := end_ text_seg - start text_seg in
  let candidates := sort_desc rc_overlap_duration
                      (raw_candidates text_seg speaker_segs tolerance) in
  match recalculate_ratios text_duration (speaker_totals candidates) with
  | Some aggregated => Some (sort_desc c_overlap_duration aggregated)
  | None => None
  end.

(* ------------------------------------------------------------------ *)
(** ** Aligned segments *)

Inductive MatchType := high_confidence | llm_resolved | fallback.

(** The [reasoning] strings: each constructor stands for one f-string of
    the source with the values it formats. *)
Inductive Reasoning :=
| R_pre_assigned                         (* "Pre-assigned speaker from split" *)
| R_active_speaker (recent_count : nat)  (* "Active speaker (n/5 recent)" *)
| R_nearest (time_dist : Q)              (* "Nearest (d.ds away)" *)
| R_previous_speaker                     (* "Previous speaker" *)
| R_global_nearest                       (* "Global nearest" *)
| R_no_speakers                          (* "No speakers" *)
| R_llm_not_available                    (* "LLM not available, ..." *)
| R_llm_invalid_speaker                  (* "LLM returned invalid speaker, ..." *)
| R_llm_error                            (* "LLM error, fallback ..." *)
| R_oracle (s : str)                     (* the oracle's own text *)
| R_fallback_llm (r : Reasoning)         (* "Fallback+LLM: ..." *)
| R_single (ratio : Q) (tolerance : bool)          (* "Single speaker with ..." *)
| R_dominant (ratio : Q) (tolerance_mult : option Q). (* "Dominant speaker ..." *)

(** Entries of [AlignedSegment.candidates] and of the oracle's candidate
    list: the resolver's dicts, or the pseudo-candidate dicts
    [{'speaker', 'overlap_ratio': 0.0, 'confidence_multiplier': 1.0}]. *)
Inductive CandidateEntry :=
| Real (c : Candidate)
| Pseudo (spk : str).

Definition ce_speaker (c : CandidateEntry) : str :=
  match c with Real c => c_speaker c | Pseudo s => s end.

Definition ce_overlap_ratio (c : CandidateEntry) : Q :=
  match c with Real c => c_overlap_ratio c | Pseudo _ => 0 end.

Record AlignedSegment := mkAlignedSegment {
  a_start : Q;
  a_end : Q;
  a_speaker : str;
  a_text : str;
  confidence : Q;
  match_type : MatchType;
  reasoning : Reasoning;
  candidates : list CandidateEntry
}.

(* ------------------------------------------------------------------ *)
(** ** Smart fallback *)

Record FallbackResult := mkFallbackResult {
  fb_speaker : str;
  fb_confidence : Q;
  fb_reasoning : Reasoning
}.

(** [min(xs, key=key)]: the first element of minimal key. *)
Fixpoint py_min {A} (key : A -> Q) (cur : A) (l : list A) : A :=
  match l with
  | [] => cur
  | y :: l' => if Qltb (key y) (key cur) then py_min key y l' else py_min key cur l'
  end.

(** [xs[-n:]] *)
Definition lastn {A} (n : nat) (l : list A) : list A :=
  skipn (List.length l - n) l.

(** [sum(1 for s in segs if s.speaker == spk)] *)
Definition count_speaker (spk : str) (segs : list AlignedSegment) : nat :=
  List.length (filter (fun s => str_eqb (a_speaker s) spk) segs).

Definition time_window : Q := 10.

Definition nearby_speakers (text_seg : VTTSegment) (speaker_vtt : list VTTSegment)
  : list VTTSegment :=
  filter (fun s => Qltb (Qabs (start s - start text_seg)) time_window) speaker_vtt.

(** [smart_fallback] *)
Definition smart_fallback (text_seg : VTTSegment) (speaker_vtt : list VTTSegment)
    (context_before : list AlignedSegment) : FallbackResult :=
  let nearby := nearby_speakers text_seg speaker_vtt in
  let strategy1 :=
    match rev context_before with
    | last_seg :: _ =>
        if (3 <=? List.length context_before)%nat then
          let recent_speaker := a_speaker last_seg in
          let recent_count :=
            count_speaker recent_speaker (lastn 5 context_before) in
          if (3 <=? recent_count)%nat && negb (Nat.eqb (List.length nearby) 0)
             && existsb (fun s => str_eqb (speaker s) recent_speaker) nearby
          then Some (mkFallbackResult recent_speaker (65 # 100)
                       (R_active_speaker recent_count))
          else None
        else None
    | [] => None
    end in
  match strategy1 with
  | Some r => r
  | None =>
      let dist_start s := Qmin (Qabs (start s - start text_seg))
                               (Qabs (end_ s - start text_seg)) in
      match nearby with
      | n0 :: ns =>
          let nearest := py_min dist_start n0 ns in
          let time_dist := dist_start nearest in
          mkFallbackResult (speaker nearest)
            (Qmax (4 # 10) ((7 # 10) - (time_dist / time_window) * (3 # 10)))
            (R_nearest time_dist)
      | [] =>
          match rev context_before with
          | last_seg :: _ =>
              mkFallbackResult (a_speaker last_seg) (35 # 100) R_previous_speaker
          | [] =>
              match speaker_vtt with
              | s0 :: ss =>
                  let nearest :=
                    py_min (fun s => Qmin (Qabs (start s - start text_seg))
                                          (Qabs (end_ s - end_ text_seg))) s0 ss in
                  mkFallbackResult (speaker nearest) (30 # 100) R_global_nearest
              | [] => mkFallbackResult (S_ "Unknown") 0 R_no_speakers
              end
          end
      end
  end.

(* ------------------------------------------------------------------ *)
(** ** Arbitration oracle adapter *)

(** What the oracle is given; the prompt text is a function of it. *)
Record OracleRequest := mkOracleRequest {
  q_text_seg : VTTSegment;
  q_candidates : list CandidateEntry;
  q_context_before : list AlignedSegment;
  q_context_after : list VTTSegment
}.

(** The decoded JSON object; a missing key is [None]. *)
Record OracleJson := mkOracleJson {
  j_speaker : option str;
  j_confidence : option Q;
  j_reasoning : option str
}.

(** Outcome of [client.chat.completions.create] and [json.loads]. *)
Inductive OracleOutcome :=
| TransportError                    (* [create] raised *)
| Reply (json : option OracleJson). (* [None]: [json.loads] raised or no object *)

(** A configured client, seen as the function from request to outcome. *)
Definition Oracle := OracleRequest -> OracleOutcome.

(** The dict returned by [ask_llm_for_speaker]; the oracle's own dict may
    lack ['confidence'] or ['reasoning']. *)
Record LLMResult := mkLLMResult {
  l_speaker : str;
  l_confidence : option Q;
  l_reasoning : option Reasoning
}.

(** [llm_stats] *)
Record LLMStats := mkLLMStats {
  attempts : nat;
  actual_calls : nat;
  fallbacks : nat
}.

Definition bump_fallbacks (s : LLMStats) : LLMStats :=
  mkLLMStats (attempts s) (actual_calls s) (S (fallbacks s)).
Definition bump_actual_calls (s : LLMStats) : LLMStats :=
  mkLLMStats (attempts s) (S (actual_calls s)) (fallbacks s).
Definition bump_attempts (s : LLMStats) : LLMStats :=
  mkLLMStats (S (attempts s)) (actual_calls s) (fallbacks s).

Section Oracle_adapter.

(** [OPENAI_AVAILABLE]: whether the [openai] package imported. *)
Variable OPENAI_AVAILABLE : bool.

(** The [except] branch: top candidate at [overlap_ratio * 0.8]; with no
    candidate the [IndexError] escapes ([None]). *)
Definition llm_error_fallback (cands : list CandidateEntry) (st : option LLMStats)
  : option (LLMResult * option LLMStats) :=
  match cands with
  | top :: _ =>
      Some (mkLLMResult (ce_speaker top) (Some (ce_overlap_ratio top * (8 # 10)))
              (Some R_llm_error), st)
  | [] => None
  end.

(** [ask_llm_for_speaker]; [llm_stats = None] also stands for an empty
    (falsy) dict.  [None] as result: an exception escapes. *)
Definition ask_llm_for_speaker (text_seg : VTTSegment) (cands : list CandidateEntry)
    (context_before : list AlignedSegment) (context_after : list VTTSegment)
    (client : option Oracle) (llm_stats : option LLMStats)
  : option (LLMResult * option LLMStats) :=
  let no_client :=
    let st := option_map bump_fallbacks llm_stats in
    match cands with
    | top :: _ =>
        Some (mkLLMResult (ce_speaker top) (Some (ce_overlap_ratio top))
                (Some R_llm_not_available), st)
    | [] => None
    end in
  match client with
  | Some oracle =>
      if OPENAI_AVAILABLE then
        match oracle (mkOracleRequest text_seg cands context_before context_after) with
        | TransportError => llm_error_fallback cands llm_stats
        | Reply json =>
            let st := option_map bump_actual_calls llm_stats in
            match json with
            | Some (mkOracleJson (Some spk) conf rsn) =>
                if existsb (str_eqb spk) (map ce_speaker cands)
                then Some (mkLLMResult spk conf (option_map R_oracle rsn), st)
                else match cands with
                     | top :: _ =>
                         Some (mkLLMResult (ce_speaker top) (Some (7 # 10))
                                 (Some R_llm_invalid_speaker), st)
                     | [] => llm_error_fallback cands st
                     end
            | _ => llm_error_fallback cands st
            end
        end
      else no_client
  | None => no_client
  end.

End Oracle_adapter.

(* ------------------------------------------------------------------ *)
(** ** Segment splitter *)

Definition is_terminator (c : ascii) : bool :=
  ascii_eqb c "." || ascii_eqb c "!" || ascii_eqb c "?".

(** Regex [([.!?]\s+)]. *)
Definition p_sentence_break : Parser str :=
  p_group (_ <- p_sat is_terminator ;; _ <- p_plus is_space ;; p_ret tt).

(** [re.match(r'^[.!?]\s+$', s)] *)
Definition is_sentence_break (s : str) : bool :=
  match re_match (_ <- p_sat is_terminator ;; _ <- p_plus is_space ;; p_eol) s with
  | Some _ => true
  | None => false
  end.

(** The [while] loop that re-attaches terminators. *)
Fixpoint reconstruct_sentences (sentences : list str) : list str :=
  match sentences with
  | [] => []
  | [a] => if Nat.eqb (List.length (strip a)) 0 then [] else [a]
  | a :: ((b :: rest) as tl) =>
      if is_sentence_break b then (a ++ strip b) :: reconstruct_sentences rest
      else if Nat.eqb (List.length (strip a)) 0 then reconstruct_sentences tl
      else a :: reconstruct_sentences tl
  end.

Definition split_sentences (t : str) : list str :=
  reconstruct_sentences (re_split_group p_sentence_break t).

(** [list.sort(key=key)]: stable ascending sort. *)
Definition sort_asc {A} (key : A -> Q) (l : list A) : list A :=
  sort_desc (fun a => - key a) l.

(** The inner loop choosing [best_speaker] for one sub-interval. *)
Definition best_speaker (overlapping : list VTTSegment) (ss se : Q) : option str :=
  snd (fold_left
         (fun acc spk_seg =>
            let '(max_overlap, best) := acc in
            let ov := calculate_overlap (start spk_seg) (end_ spk_seg) ss se in
            if Qltb max_overlap ov then (ov, Some (speaker spk_seg)) else acc)
         overlapping (0, None)).

(** The loop over sentences, from [current_time]. *)
Fixpoint sentence_segments (overlapping : list VTTSegment) (duration_per_sentence : Q)
    (current_time : Q) (sentences : list str) : list VTTSegment :=
  match sentences with
  | [] => []
  | sentence :: rest =>
      let sentence_start := current_time in
      let sentence_end := current_time + duration_per_sentence in
      let tl := sentence_segments overlapping duration_per_sentence sentence_end rest in
      match best_speaker overlapping sentence_start sentence_end with
      | Some ((_ :: _) as b) => mkVTTSegment sentence_start sentence_end b (strip sentence) :: tl
      | _ => tl
      end
  end.

(** [split_turboscribe_segment_by_speakers] *)
Definition split_turboscribe_segment_by_speakers (text_seg : VTTSegment)
    (speaker_segs : list VTTSegment) : list VTTSegment :=
  let overlapping :=
    filter (fun s => Qltb 0 (calculate_overlap (start s) (end_ s)
                                               (start text_seg) (end_ text_seg)))
           speaker_segs in
  match sort_asc start overlapping with
  | [] => [text_seg]
  | (first :: _) as overlapping =>
      if forallb (fun s => str_eqb (speaker s) (speaker first)) overlapping
      then [text_seg]
      else
        let full_sentences := split_sentences (text text_seg) in
        if (List.length full_sentences <=? 1)%nat then [text_seg]
        else
          let total_duration := end_ text_seg - start text_seg in
          let duration_per_sentence :=
            total_duration / inject_Z (Z.of_nat (List.length full_sentences)) in
          match sentence_segments overlapping duration_per_sentence (start text_seg)
                  full_sentences with
          | [] => [text_seg]
          | result => result
          end
  end.

(* ------------------------------------------------------------------ *)
(** ** Alignment orchestrator *)

(** [stats] *)
Record MatchStats := mkMatchStats {
  n_high_confidence : nat;
  n_llm_resolved : nat;
  n_fallback : nat
}.

Definition count_match (m : MatchType) (s : MatchStats) : MatchStats :=
  match m with
  | high_confidence => mkMatchStats (S (n_high_confidence s)) (n_llm_resolved s) (n_fallback s)
  | llm_resolved => mkMatchStats (n_high_confidence s) (S (n_llm_resolved s)) (n_fallback s)
  | fallback => mkMatchStats (n_high_confidence s) (n_llm_resolved s) (S (n_fallback s))
  end.

(** The state threaded through the loop of [align_with_llm]. *)
Record AlignState := mkAlignState {
  aligned : list AlignedSegment;
  stats : MatchStats;
  llm_stats : LLMStats
}.

Definition initial_state : AlignState :=
  mkAlignState [] (mkMatchStats 0 0 0) (mkLLMStats 0 0 0).

Definition emit (seg : AlignedSegment) (st : AlignState) : AlignState :=
  mkAlignState (aligned st ++ [seg]) (count_match (match_type seg) (stats st)) (llm_stats st).

(** [emit] after an oracle call that updated [llm_stats]. *)
Definition emit_llm (seg : AlignedSegment) (st : AlignState) (ls : LLMStats) : AlignState :=
  mkAlignState (aligned st ++ [seg]) (count_match (match_type seg) (stats st)) ls.

Section Orchestrator.

Variable OPENAI_AVAILABLE : bool.

(** [list(set(xs))]: the iteration order of a CPython set of strings,
    which depends on the process's string-hash seed. *)
Variable set_iter : list str -> list str.

Variable client : option Oracle.
Variable speaker_vtt : list VTTSegment.
Variable text_vtt : list VTTSegment.

(** [text_vtt[i+1:i+3] if i+1 < len(text_vtt) else []] *)
Definition context_after (i : nat) : list VTTSegment :=
  if (S i <? List.length text_vtt)%nat then firstn 2 (skipn (S i) text_vtt) else [].

(** Strict candidates, then tolerant ones ([tolerance=3.0]) when there are
    none; with the [used_tolerance] flag. *)
Definition resolve_candidates (text_seg : VTTSegment) : option (list Candidate * bool) :=
  match find_speaker_candidates text_seg speaker_vtt 0 with
  | None => None
  | Some [] =>
      match find_speaker_candidates text_seg speaker_vtt 3 with
      | Some cands => Some (cands, true)
      | None => None
      end
  | Some strict => Some (strict, false)
  end.

(** The body of the [for i, text_seg in enumerate(expanded_text_vtt)] loop;
    [None]: an exception escapes. *)
Definition align_step (i : nat) (text_seg : VTTSegment) (st : AlignState)
  : option AlignState :=
  let al := aligned st in
  match speaker text_seg with
  | _ :: _ =>
      Some (emit (mkAlignedSegment (start text_seg) (end_ text_seg) (speaker text_seg)
                    (text text_seg) (95 # 100) high_confidence R_pre_assigned []) st)
  | [] =>
  match resolve_candidates text_seg with
  | None => None
  | Some ([], _) =>
      let fallback_result := smart_fallback text_seg speaker_vtt (lastn 10 al) in
      let use_fallback :=
        Some (emit (mkAlignedSegment (start text_seg) (end_ text_seg)
                      (fb_speaker fallback_result) (text text_seg)
                      (fb_confidence fallback_result) fallback
                      (fb_reasoning fallback_result) []) st) in
      match client with
      | Some _ =>
          if (5 <=? List.length al)%nat && Qltb (fb_confidence fallback_result) (6 # 10)
          then
            match firstn 5 (set_iter (map a_speaker (lastn 10 al))) with
            | [] => use_fallback
            | recent_speakers =>
                let pseudo_candidates := map Pseudo recent_speakers in
                let ls := bump_attempts (llm_stats st) in
                match ask_llm_for_speaker OPENAI_AVAILABLE text_seg pseudo_candidates
                        (lastn 5 al) (context_after i) client (Some ls) with
                | Some (r, Some ls') =>
                    match l_confidence r, l_reasoning r with
                    | Some c, Some rsn =>
                        let seg := mkAlignedSegment (start text_seg) (end_ text_seg)
                                     (l_speaker r) (text text_seg) (c * (85 # 100))
                                     llm_resolved (R_fallback_llm rsn) pseudo_candidates in
                        Some (emit_llm seg st ls')
                    | _, _ => None
                    end
                | _ => None
                end
            end
          else use_fallback
      | None => use_fallback
      end
  | Some (((top_candidate :: rest) as cs), used_tolerance) =>
      let confidence_mult := c_confidence_multiplier top_candidate in
      let base_overlap := c_overlap_ratio top_candidate in
      if Nat.eqb (List.length cs) 1 && Qltb (8 # 10) base_overlap then
        let final_conf := Qmin (99 # 100) (base_overlap * confidence_mult * (11 # 10)) in
        Some (emit (mkAlignedSegment (start text_seg) (end_ text_seg)
                      (c_speaker top_candidate) (text text_seg) final_conf high_confidence
                      (R_single base_overlap used_tolerance) (map Real cs)) st)
      else if match rest with
              | second :: _ => Qltb (15 # 100) (c_overlap_ratio second)
              | [] => false
              end then
        let ls := bump_attempts (llm_stats st) in
        match ask_llm_for_speaker OPENAI_AVAILABLE text_seg (map Real cs)
                (lastn 5 al) (context_after i) client (Some ls) with
        | Some (r, Some ls') =>
            match l_confidence r, l_reasoning r with
            | Some c, Some rsn =>
                let seg := mkAlignedSegment (start text_seg) (end_ text_seg)
                             (l_speaker r) (text text_seg) c llm_resolved rsn (map Real cs) in
                Some (emit_llm seg st ls')
            | _, _ => None
            end
        | _ => None
        end
      else
        let final_conf := base_overlap * confidence_mult in
        Some (emit (mkAlignedSegment (start text_seg) (end_ text_seg)
                      (c_speaker top_candidate) (text text_seg) final_conf high_confidence
                      (R_dominant base_overlap
                         (if used_tolerance then Some confidence_mult else None))
                      (map Real cs)) st)
  end
  end.

(** The loop over the expanded sequence, in order, from index [i]. *)
Fixpoint align_loop (i : nat) (segs : list VTTSegment) (st : AlignState)
  : option AlignState :=
  match segs with
  | [] => Some st
  | text_seg :: rest =>
      match align_step i text_seg st with
      | Some st' => align_loop (S i) rest st'
      | None => None
      end
  end.

Definition expanded_text_vtt : list VTTSegment :=
  flat_map (fun text_seg => split_turboscribe_segment_by_speakers text_seg speaker_vtt)
           text_vtt.

(** [align_with_llm] with the client already initialised ([client] is
    [Some] iff an API key was given and [OPENAI_AVAILABLE]).  The printing
    and the unused [build_speaker_mapping] result are left out. *)
Definition align_with_llm : option (list AlignedSegment) :=
  match align_loop 0 expanded_text_vtt initial_state with
  | Some st => Some (aligned st)
  | None => None
  end.

End Orchestrator.

(* ================================================================== *)
(** * Specification helpers and concrete inputs *)

Open Scope Q_scope.

(** Descending order on a key, the order [sorted(..., reverse=True)]
    produces. *)
Definition desc {A} (key : A -> Q) (a b : A) : Prop := key b <= key a.

(** The equal-width sub-intervals walked by the sentence loop. *)
Fixpoint sentence_intervals (current_time duration_per_sentence : Q) (n : nat)
  : list (Q * Q) :=
  match n with
  | O => []
  | S n' => (current_time, current_time + duration_per_sentence)
            :: sentence_intervals (current_time + duration_per_sentence)
                 duration_per_sentence n'
  end.

(** No [:] in a string. *)
Definition no_colon (u : str) : bool := forallb (fun c => negb (ascii_eqb c colon)) u.

(** A run of exactly [n] decimal digits. *)
Definition digits_of_len (n : nat) (u : str) : Prop :=
  List.length u = n /\ forallb is_digit u = true.

(** The summed overlap of speaker [s] over the per-segment candidates. *)
Definition overlap_sum (s : str) (raw : list RawCandidate) : Q :=
  fold_right (fun c acc => (if str_eqb (rc_speaker c) s then rc_overlap_duration c else 0) + acc)
             0 raw.

(** The duration recorded for speaker [s] in a totals list (its first
    entry), 0 when absent. *)
Definition total_of (totals : list Candidate) (s : str) : Q :=
  fold_right (fun e acc => if str_eqb (c_speaker e) s then c_overlap_duration e else acc)
             0 totals.

(** One iteration order of [list(set(l))]: the distinct elements, each
    once. *)
Fixpoint dedup (l : list str) : list str :=
  match l with
  | [] => []
  | x :: t => x :: filter (fun y => negb (str_eqb y x)) (dedup t)
  end.

(** What an iteration order of a set built from [l] must satisfy. *)
Definition set_iteration_order (f : list str -> list str) : Prop :=
  forall l, NoDup (f l) /\ forall x, In x (f l) <-> In x l.

(** A VTT file in the text role whose only cue holds a bare speaker tag. *)
Definition bare_tag_vtt : str :=
  S_ "WEBVTT" ++ [newline; newline] ++ S_ "1" ++ [newline]
  ++ S_ "00:00:01.000 --> 00:00:02.000" ++ [newline] ++ S_ "[SPEAKER_1]" ++ [newline].

Definition mkseg (a b : Z) (spk txt : string) : VTTSegment :=
  mkVTTSegment (inject_Z a) (inject_Z b) (S_ spk) (S_ txt).

(** Alternating speakers, then a text segment far from all of them. *)
Definition alternating_speakers : list VTTSegment :=
  [mkseg 0 1 "Alice" ""; mkseg 1 2 "Bob" ""; mkseg 2 3 "Alice" "";
   mkseg 3 4 "Bob" ""; mkseg 4 5 "Alice" ""].

Definition five_then_far_texts : list VTTSegment :=
  [mkseg 0 1 "" "a"; mkseg 1 2 "" "b"; mkseg 2 3 "" "c"; mkseg 3 4 "" "d";
   mkseg 4 5 "" "e"; mkseg 50 51 "" "f"].

(** An oracle with a fixed answer naming no candidate. *)
Definition fixed_oracle : Oracle :=
  fun _ => Reply (Some (mkOracleJson (Some (S_ "Zed")) (Some 1) (Some (S_ "r")))).

(** An oracle naming "Zed" with confidence 5, outside [[0, 1]]. *)
Definition five_confidence_oracle : Oracle :=
  fun _ => Reply (Some (mkOracleJson (Some (S_ "Zed")) (Some 5) None)).

(** Two speakers, Alice dominating the text segment [dominant_text]. *)
Definition dominant_pair_speakers : list VTTSegment :=
  [mkVTTSegment 0 (82 # 10) (S_ "Alice") []; mkVTTSegment (82 # 10) 10 (S_ "Bob") []].

Definition dominant_text : VTTSegment := mkseg 0 10 "" "hello world".

(** One speaker segment far from two text segments. *)
Definition far_speaker : list VTTSegment := [mkseg 100 105 "Bob" ""].

Definition two_far_texts : list VTTSegment := [mkseg 0 5 "" "a"; mkseg 50 55 "" "b"].

(* ------------------------------------------------------------------ *)
(** ** Output formatting *)
(** [x // y] on floats: the floor of the quotient, as a float. *)
Definition py_floordiv (x y : Q) : Q := inject_Z (Qfloor (x / y)).

(** [x % y] on floats: the remainder with the sign of [y]. *)
Definition py_mod (x y : Q) : Q := x - y * py_floordiv x y.

(** [int(x)] on a float: truncation toward 0. *)
Definition py_int_of_float (x : Q) : Z :=
  if Qle_bool 0 x then Qfloor x else (- Qfloor (- x))%Z.

Definition digit_char (d : Z) : ascii := ascii_of_nat (48 + Z.to_nat d).

Fixpoint z_digits_aux (fuel : nat) (n : Z) (acc : str) : str :=
  match fuel with
  | O => acc
  | S f =>
      let acc' := digit_char (n mod 10) :: acc in
      if (n <? 10)%Z then acc' else z_digits_aux f (n / 10) acc'
  end.

(** The decimal digits of [n >= 0], as [str(n)]. *)
Definition z_digits (n : Z) : str := z_digits_aux (S (Z.to_nat n)) n [].

(** [f"{n:02d}"]: the sign, then zeros up to width 2, then the digits. *)
Definition fmt02d (n : Z) : str :=
  let sign := if (n <? 0)%Z then S_ "-" else [] in
  let ds := z_digits (Z.abs n) in
  sign ++ repeat "0"%char (2 - List.length sign - List.length ds) ++ ds.

(** [format_time] *)
Definition format_time (seconds : Q) : str :=
  let h := py_int_of_float (py_floordiv seconds 3600) in
  let m := py_int_of_float (py_floordiv (py_mod seconds 3600) 60) in
  let s := py_int_of_float (py_mod seconds 60) in
  fmt02d h ++ [colon] ++ fmt02d m ++ [colon] ++ fmt02d s.

(* ------------------------------------------------------------------ *)
(** ** Markdown grouping *)

(** The [current_group] dicts of [generate_markdown]. *)
Record Group := mkGroup {
  g_speaker : str;
  g_start : Q;
  g_end : Q;
  g_texts : list str;
  g_min_confidence : Q
}.

Definition new_group (seg : AlignedSegment) : Group :=
  mkGroup (a_speaker seg) (a_start seg) (a_end seg) [a_text seg] (confidence seg).

(** [min(a, b)] on floats: [b] when [b < a], else [a]. *)
Definition py_min2 (a b : Q) : Q := if Qltb b a then b else a.

(** One iteration of the grouping loop: [(grouped, current_group)]. *)
Definition group_step (acc : list Group * option Group) (seg : AlignedSegment)
  : list Group * option Group :=
  let '(grouped, current_group) := acc in
  match current_group with
  | Some g =>
      if str_eqb (g_speaker g) (a_speaker seg)
      then (grouped, Some (mkGroup (g_speaker g) (g_start g) (a_end seg)
                             (g_texts g ++ [a_text seg])
                             (py_min2 (g_min_confidence g) (confidence seg))))
      else (grouped ++ [g], Some (new_group seg))
  | None => (grouped, Some (new_group seg))
  end.

(** The grouping of consecutive segments by speaker in [generate_markdown]. *)
Definition group_segments (segments : list AlignedSegment) : list Group :=
  let '(grouped, current_group) := fold_left group_step segments ([], None) in
  match current_group with
  | Some g => grouped ++ [g]
  | None => grouped
  end.

(** [g] is the group of the run [run]. *)
Definition describes (run : list AlignedSegment) (g : Group) : Prop :=
  run <> []
  /\ Forall (fun a => a_speaker a = g_speaker g) run
  /\ (exists a r, run = a :: r /\ g_start g = a_start a)
  /\ (exists r a, run = r ++ [a] /\ g_end g = a_end a)
  /\ g_texts g = map a_text run
  /\ In (g_min_confidence g) (map confidence run)
  /\ Forall (fun a => g_min_confidence g <= confidence a) run.

Definition speakers_change (gs : list Group) : Prop :=
  forall l1 g1 g2 l2, gs = l1 ++ g1 :: g2 :: l2 -> g_speaker g1 <> g_speaker g2.

Definition group_inv (prefix : list AlignedSegment) (acc : list Group * option Group) : Prop :=
  let '(grouped, cur) := acc in
  (cur = None -> prefix = [] /\ grouped = [])
  /\ (forall g, cur = Some g ->
        exists runs run, prefix = concat runs ++ run
          /\ Forall2 describes runs grouped /\ describes run g
          /\ speakers_change (grouped ++ [g])).

(* ------------------------------------------------------------------ *)
(** ** Counting and candidate fields *)

Definition match_type_eqb (m1 m2 : MatchType) : bool :=
  match m1, m2 with
  | high_confidence, high_confidence | llm_resolved, llm_resolved
  | fallback, fallback => true
  | _, _ => false
  end.

Definition count_type (m : MatchType) (segs : list AlignedSegment) : nat :=
  List.length (filter (fun a => match_type_eqb (match_type a) m) segs).

Definition match_counts (segs : list AlignedSegment) : MatchStats :=
  mkMatchStats (count_type high_confidence segs) (count_type llm_resolved segs)
    (count_type fallback segs).

Definition raw_fields (tolerance : Q) (c : RawCandidate) : Prop :=
  0 < rc_overlap_duration c
  /\ (85 # 100 <= rc_confidence_multiplier c /\ rc_confidence_multiplier c <= 1)
  /\ (rc_used_tolerance c = false -> rc_confidence_multiplier c == 1)
  /\ (rc_used_tolerance c = true -> 0 < tolerance).

Definition total_fields (tolerance : Q) (c : Candidate) : Prop :=
  0 < c_overlap_duration c
  /\ (85 # 100 <= c_confidence_multiplier c /\ c_confidence_multiplier c <= 1)
  /\ (c_used_tolerance c = false -> c_confidence_multiplier c == 1)
  /\ (c_used_tolerance c = true -> 0 < tolerance).

(* ================================================================== *)
(** * Properties *)

(* ------------------------------------------------------------------ *)
(** ** Interval overlap engine *)

(** C7: for intervals with [end >= start], [calculate_overlap] is
    [max(0, min(aEnd,bEnd) - max(aStart,bStart))]; it is commutative,
    equals the duration on [(a, a)], and is 0 for disjoint or touching
    intervals. *)
Theorem calculate_overlap_contract (a_s a_e b_s b_e : Q)
    (Ha : a_s <= a_e) (Hb : b_s <= b_e) :
  calculate_overlap a_s a_e b_s b_e == Qmax 0 (Qmin a_e b_e - Qmax a_s b_s)
  /\ 0 <= calculate_overlap a_s a_e b_s b_e
  /\ calculate_overlap a_s a_e b_s b_e == calculate_overlap b_s b_e a_s a_e
  /\ calculate_overlap a_s a_e a_s a_e == a_e - a_s
  /\ (a_e <= b_s \/ b_e <= a_s -> calculate_overlap a_s a_e b_s b_e == 0).
Proof.
  unfold calculate_overlap. split; [reflexivity|]. split; [apply Q.le_max_l|].
  split; [rewrite (Q.max_comm a_s b_s), (Q.min_comm a_e b_e); reflexivity|].
  split.
  - rewrite Q.max_id, Q.min_id. apply Q.max_r. apply Qle_minus_iff in Ha.
    exact Ha.
  - intros [H | H]; apply Q.max_l.
    + assert (Qmin a_e b_e <= Qmax a_s b_s).
      { apply Qle_trans with a_e; [apply Q.le_min_l|].
        apply Qle_trans with b_s; [exact H | apply Q.le_max_r]. }
      apply Qle_minus_iff in H0. apply Qle_minus_iff.
      setoid_replace (0 + - (Qmin a_e b_e - Qmax a_s b_s))
        with (Qmax a_s b_s + - Qmin a_e b_e) by ring. exact H0.
    + assert (Qmin a_e b_e <= Qmax a_s b_s).
      { apply Qle_trans with b_e; [apply Q.le_min_r|].
        apply Qle_trans with a_s; [exact H | apply Q.le_max_l]. }
      apply Qle_minus_iff in H0. apply Qle_minus_iff.
      setoid_replace (0 + - (Qmin a_e b_e - Qmax a_s b_s))
        with (Qmax a_s b_s + - Qmin a_e b_e) by ring. exact H0.
Qed.

Lemma calculate_overlap_contract_witness :
  (0 <= 5 /\ 3 <= 8) /\
  calculate_overlap 0 5 3 8 == 2.
Proof.
  split; [split; vm_compute; discriminate|].
  destruct (calculate_overlap_contract 0 5 3 8) as [H _];
    [vm_compute; discriminate | vm_compute; discriminate |].
  rewrite H. reflexivity.
Defined.

(* ------------------------------------------------------------------ *)
(** ** String lemmas *)

Lemma ascii_eqb_eq (a b : ascii) : ascii_eqb a b = true <-> a = b.
Proof.
  unfold ascii_eqb. rewrite Nat.eqb_eq. split; [|intros ->; reflexivity].
  intros H. rewrite <- (ascii_nat_embedding a), <- (ascii_nat_embedding b), H.
  reflexivity.
Qed.

Lemma str_eqb_eq (a b : str) : str_eqb a b = true <-> a = b.
Proof.
  revert b; induction a as [|x a IH]; intros [|y b]; simpl;
    try (split; congruence).
  rewrite andb_true_iff, ascii_eqb_eq, IH. split.
  - intros [-> ->]; reflexivity.
  - intros H; injection H; auto.
Qed.

Lemma str_eqb_refl (a : str) : str_eqb a a = true.
Proof. apply str_eqb_eq; reflexivity. Qed.

Lemma existsb_str_eqb_In (s : str) (l : list str) :
  existsb (str_eqb s) l = true <-> In s l.
Proof.
  rewrite existsb_exists. split.
  - intros [x [Hx Hs]]. apply str_eqb_eq in Hs. subst; exact Hx.
  - intros H. exists s. split; [exact H | apply str_eqb_refl].
Qed.

(* ------------------------------------------------------------------ *)
(** ** Arbitration oracle adapter *)

(** C5: with a non-empty candidate list, [ask_llm_for_speaker] never
    raises and returns one of the candidates' speakers.  Without a client
    it returns the top candidate with its [overlap_ratio] as confidence and
    counts a degraded fallback (the only path that touches that counter);
    an answer naming no candidate gives the top candidate at 0.7; a
    transport or decoding failure gives the top candidate at
    [overlap_ratio * 0.8]. *)
Theorem ask_llm_for_speaker_fallbacks (OPENAI_AVAILABLE : bool) (text_seg : VTTSegment)
    (top : CandidateEntry) (rest : list CandidateEntry)
    (context_before : list AlignedSegment) (context_after : list VTTSegment)
    (client : option Oracle) (llm_stats : option LLMStats) :
  let cands := top :: rest in
  let req := mkOracleRequest text_seg cands context_before context_after in
  exists r st',
    ask_llm_for_speaker OPENAI_AVAILABLE text_seg cands context_before context_after
      client llm_stats = Some (r, st')
    /\ In (l_speaker r) (map ce_speaker cands)
    /\ ((client = None \/ OPENAI_AVAILABLE = false) ->
        r = mkLLMResult (ce_speaker top) (Some (ce_overlap_ratio top))
              (Some R_llm_not_available)
        /\ st' = option_map bump_fallbacks llm_stats)
    /\ (forall oracle, client = Some oracle -> OPENAI_AVAILABLE = true ->
        (forall s, llm_stats = Some s ->
           exists s', st' = Some s' /\ fallbacks s' = fallbacks s)
        /\ (forall spk conf rsn,
              oracle req = Reply (Some (mkOracleJson (Some spk) conf rsn)) ->
              ~ In spk (map ce_speaker cands) ->
              r = mkLLMResult (ce_speaker top) (Some (7 # 10))
                    (Some R_llm_invalid_speaker))
        /\ ((oracle req = TransportError \/ oracle req = Reply None
             \/ exists conf rsn, oracle req = Reply (Some (mkOracleJson None conf rsn))) ->
            r = mkLLMResult (ce_speaker top) (Some (ce_overlap_ratio top * (8 # 10)))
                  (Some R_llm_error))).
Proof.
  intros cands req.
  destruct client as [oracle|]; [destruct OPENAI_AVAILABLE|].
  - simpl. fold req.
    destruct (oracle req) as [|[[[spk|] conf rsn]|]] eqn:Ho.
    + (* transport error *)
      eexists; eexists; split; [reflexivity|]. split; [left; reflexivity|].
      split; [intros [H|H]; discriminate|].
      intros o Hc _. injection Hc as <-. split; [|split].
      * intros s -> ; exists s; split; reflexivity.
      * intros spk conf rsn H. rewrite Ho in H. discriminate.
      * intros _. reflexivity.
    + (* a decoded answer naming a speaker *)
      destruct (existsb (str_eqb spk) (map ce_speaker cands)) eqn:Hv.
      * eexists; eexists; split; [simpl in Hv |- *; rewrite Hv; reflexivity|]. split.
        { simpl. apply existsb_str_eqb_In in Hv. exact Hv. }
        split; [intros [H|H]; discriminate|].
        intros o Hc _. injection Hc as <-. split; [|split].
        -- intros s ->. eexists; split; reflexivity.
        -- intros spk' conf' rsn' H Hn. rewrite Ho in H. injection H as <- _ _.
           apply existsb_str_eqb_In in Hv. contradiction.
        -- intros [H|[H|[c [r H]]]]; rewrite Ho in H; discriminate.
      * eexists; eexists; split; [simpl in Hv |- *; rewrite Hv; reflexivity|].
        split; [left; reflexivity|].
        split; [intros [H|H]; discriminate|].
        intros o Hc _. injection Hc as <-. split; [|split].
        -- intros s ->. eexists; split; reflexivity.
        -- intros _ _ _ _ _. reflexivity.
        -- intros [H|[H|[c [r H]]]]; rewrite Ho in H; discriminate.
    + (* no ['speaker'] key *)
      eexists; eexists; split; [reflexivity|]. split; [left; reflexivity|].
      split; [intros [H|H]; discriminate|].
      intros o Hc _. injection Hc as <-. split; [|split].
      * intros s ->. eexists; split; reflexivity.
      * intros spk conf' rsn' H. rewrite Ho in H. discriminate.
      * intros _. reflexivity.
    + (* undecodable answer *)
      eexists; eexists; split; [reflexivity|]. split; [left; reflexivity|].
      split; [intros [H|H]; discriminate|].
      intros o Hc _. injection Hc as <-. split; [|split].
      * intros s ->. eexists; split; reflexivity.
      * intros spk conf' rsn' H. rewrite Ho in H. discriminate.
      * intros _. reflexivity.
  - eexists; eexists; split; [reflexivity|]. split; [left; reflexivity|].
    split; [intros _; split; reflexivity|].
    intros o _ H. discriminate.
  - eexists; eexists; split; [reflexivity|]. split; [left; reflexivity|].
    split; [intros _; split; reflexivity|].
    intros o H. discriminate.
Qed.

(* ------------------------------------------------------------------ *)
(** ** Stable sort *)

Section Stable_sort.

Context {A : Type} (key : A -> Q).

Lemma insert_desc_perm (x : A) (l : list A) :
  Permutation (insert_desc key x l) (x :: l).
Proof.
  induction l as [|y l IH]; simpl; [reflexivity|].
  destruct (Qle_bool (key y) (key x)); [reflexivity|].
  rewrite IH. apply perm_swap.
Qed.

Lemma sort_desc_perm (l : list A) : Permutation (sort_desc key l) l.
Proof.
  induction l as [|x l IH]; simpl; [reflexivity|].
  rewrite insert_desc_perm, IH. reflexivity.
Qed.

Lemma sort_desc_In (x : A) (l : list A) : In x (sort_desc key l) <-> In x l.
Proof. split; apply Permutation_in; [|symmetry]; apply sort_desc_perm. Qed.

Lemma insert_desc_sorted (x : A) (l : list A) :
  Sorted (desc key) l -> Sorted (desc key) (insert_desc key x l).
Proof.
  induction l as [|y l IH]; simpl; intros Hs.
  - repeat constructor.
  - destruct (Qle_bool (key y) (key x)) eqn:Hyx.
    + constructor; [exact Hs|]. constructor. apply Qle_bool_iff, Hyx.
    + apply Sorted_inv in Hs as [Hl Hhd]. constructor; [apply IH, Hl|].
      assert (Hxy : key x <= key y).
      { apply Qlt_le_weak, Qnot_le_lt. intros H. apply Qle_bool_iff in H.
        congruence. }
      destruct l as [|z l]; simpl.
      * constructor. exact Hxy.
      * inversion Hhd; subst.
        destruct (Qle_bool (key z) (key x)); constructor; assumption.
Qed.

Lemma sort_desc_sorted (l : list A) : Sorted (desc key) (sort_desc key l).
Proof.
  induction l as [|x l IH]; simpl; [constructor|]. apply insert_desc_sorted, IH.
Qed.

(** Stability: the elements of one key keep their relative order. *)
Lemma insert_desc_filter (d : Q) (x : A) (l : list A) :
  let p := fun a => Qeq_bool (key a) d in
  filter p (insert_desc key x l) = if p x then x :: filter p l else filter p l.
Proof.
  intros p. induction l as [|y l IH]; simpl.
  - destruct (p x); reflexivity.
  - destruct (Qle_bool (key y) (key x)) eqn:Hyx; simpl.
    + destruct (p x); reflexivity.
    + rewrite IH. destruct (p x) eqn:Hx; [|reflexivity].
      destruct (p y) eqn:Hy; [|reflexivity].
      exfalso. unfold p in Hx, Hy. apply Qeq_bool_iff in Hx, Hy.
      assert (H : key y <= key x) by (rewrite Hx, Hy; apply Qle_refl).
      apply Qle_bool_iff in H. congruence.
Qed.

Lemma sort_desc_filter (d : Q) (l : list A) :
  filter (fun a => Qeq_bool (key a) d) (sort_desc key l)
  = filter (fun a => Qeq_bool (key a) d) l.
Proof.
  induction l as [|x l IH]; simpl; [reflexivity|].
  rewrite insert_desc_filter, IH. reflexivity.
Qed.

End Stable_sort.

(* ------------------------------------------------------------------ *)
(** ** Segment splitter *)


Lemma best_speaker_none (overlapping : list VTTSegment) (ss se : Q) :
  (forall spk, In spk overlapping -> calculate_overlap (start spk) (end_ spk) ss se <= 0) ->
  best_speaker overlapping ss se = None.
Proof.
  unfold best_speaker. intros H.
  enough (Hf : forall acc, fst acc == 0 ->
            (forall spk, In spk overlapping ->
               calculate_overlap (start spk) (end_ spk) ss se <= 0) ->
            fold_left (fun acc spk_seg =>
              let '(max_overlap, best) := acc in
              let ov := calculate_overlap (start spk_seg) (end_ spk_seg) ss se in
              if Qltb max_overlap ov then (ov, Some (speaker spk_seg)) else acc)
              overlapping acc = acc).
  { rewrite Hf; [reflexivity | reflexivity | exact H]. }
  clear H. induction overlapping as [|x l IH]; intros [m b] Hm H; simpl; [reflexivity|].
  simpl in Hm. unfold Qltb.
  assert (Hx : calculate_overlap (start x) (end_ x) ss se <= m).
  { rewrite Hm. apply H. left; reflexivity. }
  apply Qle_bool_iff in Hx. rewrite Hx. simpl. apply IH; [exact Hm|].
  intros spk Hs. apply H. right; exact Hs.
Qed.

Lemma sentence_segments_nil (overlapping : list VTTSegment) (d cur : Q)
    (sentences : list str) :
  (forall ss se spk, In (ss, se) (sentence_intervals cur d (List.length sentences)) ->
     In spk overlapping -> calculate_overlap (start spk) (end_ spk) ss se <= 0) ->
  sentence_segments overlapping d cur sentences = [].
Proof.
  revert cur; induction sentences as [|s ss IH]; intros cur H; simpl; [reflexivity|].
  rewrite best_speaker_none.
  - apply IH. intros a b spk Hi Hs. apply (H a b spk); [right; exact Hi | exact Hs].
  - intros spk Hs. apply (H cur (cur + d) spk); [left; reflexivity | exact Hs].
Qed.

(** C10: the splitter never returns an empty list; when no speaker
    segment overlaps any of the equal-width sentence sub-intervals (every
    sentence dropped), it returns the input segment unchanged. *)
Theorem split_turboscribe_segment_nonempty (text_seg : VTTSegment)
    (speaker_segs : list VTTSegment) :
  split_turboscribe_segment_by_speakers text_seg speaker_segs <> []
  /\ (let n := List.length (split_sentences (text text_seg)) in
      let d := (end_ text_seg - start text_seg) / inject_Z (Z.of_nat n) in
      (forall ss se spk, In (ss, se) (sentence_intervals (start text_seg) d n) ->
         In spk speaker_segs -> calculate_overlap (start spk) (end_ spk) ss se <= 0) ->
      split_turboscribe_segment_by_speakers text_seg speaker_segs = [text_seg]).
Proof.
  unfold split_turboscribe_segment_by_speakers.
  set (ovl := filter _ speaker_segs).
  assert (Hsub : forall x, In x (sort_asc start ovl) -> In x speaker_segs).
  { intros x Hx. unfold sort_asc in Hx. apply sort_desc_In in Hx.
    apply filter_In in Hx. apply Hx. }
  destruct (sort_asc start ovl) as [|first ovs] eqn:Hs.
  { split; [discriminate | reflexivity]. }
  destruct (forallb _ _); [split; [discriminate | reflexivity]|].
  destruct (List.length (split_sentences (text text_seg)) <=? 1)%nat;
    [split; [discriminate | reflexivity]|].
  destruct (sentence_segments (first :: ovs) _ _ _) as [|r rs] eqn:Hseg.
  { split; [discriminate | reflexivity]. }
  split; [discriminate|]. simpl. intros H. exfalso.
  rewrite sentence_segments_nil in Hseg; [discriminate|].
  intros a b spk Hi Hspk. apply (H a b spk); [exact Hi | apply Hsub, Hspk].
Qed.

Lemma split_turboscribe_segment_nonempty_witness :
  split_turboscribe_segment_by_speakers
    (mkVTTSegment 0 10 [] (S_ "hello world. how are you.")) []
  = [mkVTTSegment 0 10 [] (S_ "hello world. how are you.")].
Proof.
  destruct (split_turboscribe_segment_nonempty
              (mkVTTSegment 0 10 [] (S_ "hello world. how are you.")) []) as [_ H].
  apply H. intros ss se spk _ [].
Defined.

(* ------------------------------------------------------------------ *)
(** ** Parser combinator lemmas *)

Lemma In_p_bind {A B} (p : Parser A) (f : A -> Parser B) (s : str) (y : B * str) :
  In y (p_bind p f s) <-> exists a r, In (a, r) (p s) /\ In y (f a r).
Proof.
  unfold p_bind. rewrite in_flat_map. split.
  - intros [[a r] [H1 H2]]. exists a, r. split; assumption.
  - intros [a [r [H1 H2]]]. exists (a, r). split; assumption.
Qed.

Lemma In_p_ret {A} (a : A) (s : str) (y : A * str) : In y (p_ret a s) -> y = (a, s).
Proof. intros [H|[]]. symmetry; exact H. Qed.

Lemma In_p_sat (f : ascii -> bool) (s : str) (c : ascii) (r : str) :
  In (c, r) (p_sat f s) -> s = c :: r /\ f c = true.
Proof.
  destruct s as [|x t]; simpl; [intros []|].
  destruct (f x) eqn:Hf; simpl; [|intros []].
  intros [H|[]]. injection H as <- <-. split; [reflexivity | exact Hf].
Qed.

Lemma In_p_star (f : ascii -> bool) (s cs r : str) :
  In (cs, r) (p_star f s) -> s = cs ++ r.
Proof.
  unfold p_star. rewrite in_map_iff. intros [k [Hk _]].
  injection Hk as <- <-. symmetry. apply firstn_skipn.
Qed.

Lemma In_p_plus (f : ascii -> bool) (s cs r : str) :
  In (cs, r) (p_plus f s) ->
  s = cs ++ r /\ exists c cs', cs = c :: cs' /\ f c = true.
Proof.
  unfold p_plus. intros H.
  apply In_p_bind in H as [c [r1 [H1 H]]]. apply In_p_sat in H1 as [-> Hc].
  apply In_p_bind in H as [cs' [r2 [H2 H]]]. apply In_p_star in H2 as ->.
  apply In_p_ret in H. injection H as -> ->.
  split; [reflexivity|]. exists c, cs'. split; [reflexivity | exact Hc].
Qed.

Lemma In_p_group {A} (p : Parser A) (s g r : str) :
  In (g, r) (p_group p s) ->
  exists a, In (a, r) (p s) /\ g = firstn (List.length s - List.length r) s.
Proof.
  unfold p_group. rewrite in_map_iff. intros [[a r'] [H Hin]].
  simpl in H. injection H as <- <-. exists a. split; [exact Hin | reflexivity].
Qed.

Lemma firstn_app_length (u v : str) :
  firstn (List.length (u ++ v) - List.length v) (u ++ v) = u.
Proof.
  rewrite length_app, Nat.add_sub, firstn_app, Nat.sub_diag, firstn_all. simpl.
  apply app_nil_r.
Qed.

(* ------------------------------------------------------------------ *)
(** ** Whitespace stripping *)

Lemma lstrip_cons (c : ascii) (t : str) :
  lstrip (c :: t) = if is_space c then lstrip t else c :: t.
Proof. reflexivity. Qed.

Lemma lstrip_head (s : str) (c : ascii) (r : str) :
  lstrip s = c :: r -> is_space c = false.
Proof.
  induction s as [|x t IH]; [discriminate|]. rewrite lstrip_cons.
  destruct (is_space x) eqn:Hx; [exact IH|]. intros H; injection H as -> _. exact Hx.
Qed.

Lemma lstrip_skipn (s : str) : exists k, lstrip s = skipn k s.
Proof.
  induction s as [|x t [k IH]]; [exists 0%nat; reflexivity|]. rewrite lstrip_cons.
  destruct (is_space x); [exists (S k); exact IH | exists 0%nat; reflexivity].
Qed.

Lemma rstrip_firstn (s : str) : exists k, rstrip s = firstn k s.
Proof.
  unfold rstrip. destruct (lstrip_skipn (rev s)) as [k ->].
  exists (List.length s - k)%nat. rewrite skipn_rev, rev_involutive. reflexivity.
Qed.

Lemma strip_head (s : str) (c : ascii) (r : str) :
  strip s = c :: r -> is_space c = false.
Proof.
  unfold strip. destruct (rstrip_firstn (lstrip s)) as [k ->].
  destruct (lstrip s) as [|x t] eqn:Hl; [destruct k; discriminate|].
  destruct k; [discriminate|]. simpl. intros H; injection H as -> _.
  eapply lstrip_head; exact Hl.
Qed.

Lemma lstrip_app_nonspace (u : str) (c : ascii) :
  is_space c = false -> lstrip (u ++ [c]) <> [].
Proof.
  intros Hc. induction u as [|x u IH]; simpl.
  - rewrite Hc. discriminate.
  - destruct (is_space x); [exact IH | discriminate].
Qed.

Lemma strip_nonspace_head (c : ascii) (r : str) :
  is_space c = false -> strip (c :: r) <> [].
Proof.
  intros Hc. unfold strip, rstrip. rewrite lstrip_cons, Hc. simpl.
  intros H. apply (f_equal (@rev ascii)) in H. rewrite rev_involutive in H.
  apply (lstrip_app_nonspace (rev r) c Hc). exact H.
Qed.

(* ------------------------------------------------------------------ *)
(** ** Speaker-labeled timeline *)

Lemma scan_lines_text (lines : list str) :
  forall x, In x (snd (scan_lines lines)) -> exists y, x = strip y /\ x <> [].
Proof.
  unfold scan_lines.
  assert (H : forall acc, (forall x, In x (snd acc) -> exists y, x = strip y /\ x <> []) ->
    forall x, In x (snd (fold_left (fun acc line =>
       let '(timestamp_line, text_lines) := acc in
       if contains (S_ "-->") line then (Some line, text_lines)
       else if negb (Nat.eqb (List.length (strip line)) 0)
               && negb (isdigit (strip line))
       then (timestamp_line, text_lines ++ [strip line])
       else (timestamp_line, text_lines)) lines acc)) ->
      exists y, x = strip y /\ x <> []).
  { induction lines as [|l ls IH]; intros [ts tl] Hacc; simpl; [exact Hacc|].
    apply IH. destruct (contains _ l); [exact Hacc|].
    destruct (negb (Nat.eqb (List.length (strip l)) 0) && negb (isdigit (strip l))) eqn:Hc;
      [|exact Hacc].
    simpl. intros x Hx. apply in_app_or in Hx as [Hx|[Hx|[]]]; [apply Hacc, Hx|].
    subst x. exists l. split; [reflexivity|].
    apply andb_true_iff in Hc as [Hc _]. intros He. rewrite He in Hc. discriminate. }
  apply H. intros x [].
Qed.

Lemma parse_cue_text_lines (block : str) (st en : Q) (tl : list str) :
  parse_cue block = Some (st, en, tl) ->
  tl <> [] /\ forall x, In x tl -> exists y, x = strip y /\ x <> [].
Proof.
  unfold parse_cue.
  pose proof (scan_lines_text (split_on newline (strip block))) as Hs.
  destruct (scan_lines (split_on newline (strip block))) as [[ts|] [|t0 ts0]];
    try discriminate.
  destruct (re_search p_cue_timing ts) as [[[i [g1 g2]] r]|]; [|discriminate].
  destruct (parse_timestamp g1), (parse_timestamp g2); try discriminate.
  intros H; injection H as _ _ <-. split; [discriminate | exact Hs].
Qed.

Lemma cue_speaker_nonempty (c : ascii) (r : str) :
  is_space c = false -> cue_speaker (c :: r) <> [].
Proof.
  intros Hc. unfold cue_speaker, re_match.
  destruct (p_speaker_prefix (c :: r)) as [|[g1 rest] more] eqn:Hp; simpl;
    [discriminate|].
  assert (Hin : In (g1, rest) (p_speaker_prefix (c :: r))) by (rewrite Hp; left; reflexivity).
  unfold p_speaker_prefix in Hin.
  apply In_p_bind in Hin as [g [r1 [Hg Hin]]].
  assert (Heq : g1 = g).
  { repeat (apply In_p_bind in Hin as [? [? [_ Hin]]]).
    apply In_p_ret in Hin. injection Hin as -> _. reflexivity. }
  subst g1. apply In_p_group in Hg as [cs [Hcs ->]].
  apply In_p_plus in Hcs as [Hs [c' [cs' [-> _]]]]. rewrite Hs, firstn_app_length.
  simpl in Hs. injection Hs as <- _. apply strip_nonspace_head, Hc.
Qed.

(** C9: every segment of the speaker-labeled timeline has a non-empty
    speaker and an empty text; a cue whose first text line has no
    [Name:] prefix gets the speaker "Unknown". *)
Theorem parse_vtt_with_speakers_speakers (content : str) :
  (forall seg, In seg (parse_vtt_with_speakers content) ->
     speaker seg <> [] /\ text seg = [])
  /\ (forall first_line, re_match p_speaker_prefix first_line = None ->
        cue_speaker first_line = S_ "Unknown").
Proof.
  split.
  - intros seg Hin. unfold parse_vtt_with_speakers in Hin.
    apply in_flat_map in Hin as [block [_ Hin]].
    destruct (parse_cue block) as [[[st en] tl]|] eqn:Hc; [|destruct Hin].
    destruct Hin as [<-|[]]. simpl. split; [|reflexivity].
    apply parse_cue_text_lines in Hc as [Hne Hall].
    destruct tl as [|x tl]; [contradiction|]. simpl.
    destruct (Hall x (or_introl eq_refl)) as [y [Hy Hx]].
    destruct x as [|c r]; [contradiction|].
    apply cue_speaker_nonempty. apply (strip_head y c r). symmetry; exact Hy.
  - intros first_line H. unfold cue_speaker. rewrite H. reflexivity.
Qed.

(* ------------------------------------------------------------------ *)
(** ** Timestamps *)

Lemma digit_classes (c : ascii) :
  is_digit c = true ->
  is_space c = false /\ ascii_eqb c colon = false /\ ascii_eqb c "."%char = false.
Proof.
  unfold is_digit, is_space, ascii_eqb, colon. intros H.
  apply andb_true_iff in H as [H1 H2]. apply Nat.leb_le in H1, H2.
  change (nat_of_ascii ":") with 58%nat. change (nat_of_ascii ".") with 46%nat.
  repeat split.
  - apply orb_false_iff; split; apply andb_false_iff;
      right; apply Nat.leb_gt; lia.
  - apply Nat.eqb_neq; lia.
  - apply Nat.eqb_neq; lia.
Qed.

Lemma lstrip_id (u : str) : forallb (fun c => negb (is_space c)) u = true -> lstrip u = u.
Proof.
  destruct u as [|c u]; [reflexivity|]. intros H. simpl in H.
  apply andb_true_iff in H as [H _]. rewrite lstrip_cons. destruct (is_space c);
    [discriminate | reflexivity].
Qed.

Lemma strip_id (u : str) : forallb (fun c => negb (is_space c)) u = true -> strip u = u.
Proof.
  intros H. unfold strip, rstrip. rewrite (lstrip_id u H).
  rewrite lstrip_id; [apply rev_involutive|].
  apply forallb_forall. intros x Hx. apply in_rev in Hx.
  rewrite forallb_forall in H. apply H, Hx.
Qed.

Lemma digits_not_space (u : str) :
  forallb is_digit u = true -> forallb (fun c => negb (is_space c)) u = true.
Proof.
  rewrite !forallb_forall. intros H x Hx.
  destruct (digit_classes x (H x Hx)) as [-> _]. reflexivity.
Qed.

Lemma py_int_digits (u : str) :
  u <> [] -> forallb is_digit u = true -> py_int u = Some (digits_val 0 u).
Proof.
  intros Hne Hd. unfold py_int. rewrite strip_id by (apply digits_not_space, Hd).
  destruct u; [contradiction|]. unfold isdigit. rewrite Hd. reflexivity.
Qed.

Lemma run_len_digits (ip fp : str) :
  forallb is_digit ip = true -> run_len is_digit (ip ++ "."%char :: fp) = List.length ip.
Proof.
  induction ip as [|c ip IH]; simpl; [reflexivity|].
  intros H. apply andb_true_iff in H as [-> H]. rewrite IH by exact H. reflexivity.
Qed.

Lemma py_float_digits (ip fp : str) :
  ip <> [] -> forallb is_digit ip = true -> forallb is_digit fp = true ->
  py_float (ip ++ "."%char :: fp)
  = Some (inject_Z (digits_val 0 ip)
          + inject_Z (digits_val 0 fp) / inject_Z (10 ^ Z.of_nat (List.length fp))).
Proof.
  intros Hne Hi Hf. unfold py_float.
  rewrite strip_id.
  2:{ rewrite forallb_app. simpl. rewrite !digits_not_space by assumption. reflexivity. }
  rewrite run_len_digits by exact Hi.
  rewrite firstn_app, Nat.sub_diag, firstn_all. simpl. rewrite app_nil_r.
  rewrite skipn_app, Nat.sub_diag, skipn_all. simpl.
  rewrite Hf. destruct ip; [contradiction|]. reflexivity.
Qed.


Lemma split_on_no_sep (u : str) : no_colon u = true -> split_on colon u = [u].
Proof.
  induction u as [|c u IH]; simpl; [reflexivity|].
  intros H. apply andb_true_iff in H as [Hc H]. apply negb_true_iff in Hc.
  rewrite Hc, IH by exact H. reflexivity.
Qed.

Lemma split_on_app (u v : str) :
  no_colon u = true -> split_on colon (u ++ colon :: v) = u :: split_on colon v.
Proof.
  induction u as [|c u IH]; simpl.
  - intros _. change (ascii_eqb colon colon) with true. reflexivity.
  - intros H. apply andb_true_iff in H as [Hc H]. apply negb_true_iff in Hc.
    rewrite Hc, IH by exact H. reflexivity.
Qed.

Lemma digits_no_colon (u : str) : forallb is_digit u = true -> no_colon u = true.
Proof.
  unfold no_colon. rewrite !forallb_forall. intros H x Hx.
  destruct (digit_classes x (H x Hx)) as [_ [-> _]]. reflexivity.
Qed.

Lemma In_p_count (n : nat) (f : ascii -> bool) (s cs r : str) :
  In (cs, r) (p_count n f s) ->
  s = cs ++ r /\ List.length cs = n /\ forallb f cs = true.
Proof.
  revert s cs r; induction n as [|n IH]; intros s cs r H; simpl in H.
  - apply In_p_ret in H. injection H as -> ->. auto.
  - apply In_p_bind in H as [c [r1 [H1 H]]]. apply In_p_sat in H1 as [-> Hc].
    apply In_p_bind in H as [cs' [r2 [H2 H]]]. apply IH in H2 as [-> [Hl Hf]].
    apply In_p_ret in H. injection H as -> ->. simpl. rewrite Hc, Hf, Hl. auto.
Qed.

Lemma In_p_lit (w s r : str) (u : unit) : In (u, r) (p_lit w s) -> s = w ++ r.
Proof.
  revert s; induction w as [|c w IH]; intros s H; simpl in H.
  - apply In_p_ret in H. injection H as _ ->. reflexivity.
  - apply In_p_bind in H as [c' [r1 [H1 H]]]. apply In_p_sat in H1 as [-> Hc].
    apply ascii_eqb_eq in Hc as ->. simpl. f_equal. apply IH, H.
Qed.


Lemma In_p_vtt_time (s r : str) (u : unit) :
  In (u, r) (p_vtt_time s) ->
  exists hh mm ss ms,
    digits_of_len 2 hh /\ digits_of_len 2 mm /\ digits_of_len 2 ss /\ digits_of_len 3 ms
    /\ s = (hh ++ [colon] ++ mm ++ [colon] ++ ss ++ ["."%char] ++ ms) ++ r.
Proof.
  unfold p_vtt_time. intros H.
  apply In_p_bind in H as [hh [r1 [H1 H]]]. apply In_p_count in H1 as [-> [Lh Dh]].
  apply In_p_bind in H as [? [r2 [H2 H]]]. apply In_p_lit in H2 as ->.
  apply In_p_bind in H as [mm [r3 [H3 H]]]. apply In_p_count in H3 as [-> [Lm Dm]].
  apply In_p_bind in H as [? [r4 [H4 H]]]. apply In_p_lit in H4 as ->.
  apply In_p_bind in H as [ss [r5 [H5 H]]]. apply In_p_count in H5 as [-> [Ls Ds]].
  apply In_p_bind in H as [? [r6 [H6 H]]]. apply In_p_lit in H6 as ->.
  apply In_p_bind in H as [ms [r7 [H7 H]]]. apply In_p_count in H7 as [-> [Lms Dms]].
  apply In_p_ret in H. injection H as _ ->.
  exists hh, mm, ss, ms. repeat split; try assumption.
  unfold colon. repeat (rewrite <- app_assoc || rewrite <- app_comm_cons). reflexivity.
Qed.

Lemma search_from_In {A} (p : Parser A) (s : str) (i0 i : nat) (a : A) (rest : str) :
  search_from p s i0 = Some (i, a, rest) -> exists s', In (a, rest) (p s').
Proof.
  revert i0; induction s as [|c t IH]; intros i0; simpl;
    destruct (p _) as [|[a' r'] more] eqn:Hp.
  - discriminate.
  - intros H; injection H as _ <- <-. exists []. rewrite Hp. left; reflexivity.
  - apply IH.
  - intros H; injection H as _ <- <-. exists (c :: t). rewrite Hp. left; reflexivity.
Qed.

(** [parse_timestamp] on [h:m:s] with convertible components. *)
Lemma parse_timestamp_three (h m s : str) (zh zm : Z) (qs : Q) :
  no_colon h = true -> no_colon m = true -> no_colon s = true ->
  py_int h = Some zh -> py_int m = Some zm -> py_float s = Some qs ->
  parse_timestamp (h ++ [colon] ++ m ++ [colon] ++ s)
  = Some (inject_Z (zh * 3600 + zm * 60) + qs).
Proof.
  intros Ch Cm Cs Ih Im Fs. unfold parse_timestamp. simpl.
  rewrite split_on_app by exact Ch. rewrite split_on_app by exact Cm.
  rewrite split_on_no_sep by exact Cs. rewrite Ih, Im, Fs. reflexivity.
Qed.

Lemma In_p_alt {A} (p q : Parser A) (s : str) (y : A * str) :
  In y (p_alt p q s) -> In y (p s) \/ In y (q s).
Proof. unfold p_alt. apply in_app_iff. Qed.

Lemma In_p_opt {A} (p : Parser A) (s : str) (o : option A) (r : str) :
  In (o, r) (p_opt p s) ->
  (o = None /\ r = s) \/ exists a, o = Some a /\ In (a, r) (p s).
Proof.
  unfold p_opt. intros H. apply In_p_alt in H as [H|H].
  - apply In_p_bind in H as [a [r1 [H1 H]]]. apply In_p_ret in H.
    injection H as -> ->. right. exists a. auto.
  - apply In_p_ret in H. injection H as -> ->. left. auto.
Qed.

(** The text captured by the group [(\d{2}:\d{2}:\d{2}\.\d{3})]. *)
Lemma In_p_group_vtt_time (s g r : str) :
  In (g, r) (p_group p_vtt_time s) ->
  exists hh mm ss ms,
    digits_of_len 2 hh /\ digits_of_len 2 mm /\ digits_of_len 2 ss /\ digits_of_len 3 ms
    /\ g = hh ++ [colon] ++ mm ++ [colon] ++ (ss ++ "."%char :: ms).
Proof.
  intros H. apply In_p_group in H as [u [Hu ->]].
  apply In_p_vtt_time in Hu as (hh & mm & ss & ms & Dh & Dm & Ds & Dms & ->).
  exists hh, mm, ss, ms. refine (conj Dh (conj Dm (conj Ds (conj Dms _)))).
  rewrite firstn_app_length. unfold colon.
  repeat (rewrite <- app_assoc || rewrite <- app_comm_cons). reflexivity.
Qed.

(** What [parse_timestamp] is applied to in a VTT cue: both groups of
    the cue-timing regex have the shape [hh:mm:ss.mmm]. *)
Lemma In_p_cue_timing (s g1 g2 r : str) :
  In ((g1, g2), r) (p_cue_timing s) ->
  (exists s1 r1, In (g1, r1) (p_group p_vtt_time s1))
  /\ (exists s2, In (g2, r) (p_group p_vtt_time s2)).
Proof.
  unfold p_cue_timing. intros H.
  apply In_p_bind in H as [g [r1 [H1 H]]].
  apply In_p_bind in H as [? [? [_ H]]]. apply In_p_bind in H as [? [? [_ H]]].
  apply In_p_bind in H as [? [s2 [_ H]]]. apply In_p_bind in H as [g' [r5 [H5 H]]].
  apply In_p_ret in H. injection H as -> -> ->.
  split; [exists s, r1; exact H1 | exists s2; exact H5].
Qed.

(** [parse_timestamp] on a string of the shape [hh:mm:ss.mmm]. *)
Lemma parse_timestamp_vtt_shape (hh mm ss ms : str) :
  digits_of_len 2 hh -> digits_of_len 2 mm -> digits_of_len 2 ss -> digits_of_len 3 ms ->
  exists zh zm qs,
    py_int hh = Some zh /\ py_int mm = Some zm /\ py_float (ss ++ "."%char :: ms) = Some qs
    /\ parse_timestamp (hh ++ [colon] ++ mm ++ [colon] ++ (ss ++ "."%char :: ms))
       = Some (inject_Z (zh * 3600 + zm * 60) + qs).
Proof.
  intros [Lh Dh] [Lm Dm] [Ls Ds] [Lms Dms].
  assert (Nh : hh <> []) by (intros ->; discriminate Lh).
  assert (Nm : mm <> []) by (intros ->; discriminate Lm).
  assert (Ns : ss <> []) by (intros ->; discriminate Ls).
  exists (digits_val 0 hh), (digits_val 0 mm),
    (inject_Z (digits_val 0 ss)
     + inject_Z (digits_val 0 ms) / inject_Z (10 ^ Z.of_nat (List.length ms))).
  rewrite !py_int_digits by assumption. rewrite py_float_digits by assumption.
  repeat split. apply parse_timestamp_three.
  - apply digits_no_colon, Dh.
  - apply digits_no_colon, Dm.
  - unfold no_colon. rewrite forallb_app. simpl.
    fold (no_colon ss). fold (no_colon ms). rewrite !digits_no_colon by assumption. reflexivity.
  - apply py_int_digits; assumption.
  - apply py_int_digits; assumption.
  - apply py_float_digits; assumption.
Qed.

Lemma In_p_d12 (s a r : str) :
  In (a, r) (p_d12 s) -> a <> [] /\ forallb is_digit a = true.
Proof.
  unfold p_d12. intros H. apply In_p_group in H as [x [Hx ->]].
  apply In_p_alt in Hx as [Hx|Hx]; apply In_p_count in Hx as [-> [Hl Hd]];
    rewrite firstn_app_length; (split; [intros ->; discriminate Hl | exact Hd]).
Qed.

Lemma In_p_tb_time (s a b r : str) (c : option str) :
  In ((a, b, c), r) (p_tb_time s) ->
  (a <> [] /\ forallb is_digit a = true) /\ digits_of_len 2 b
  /\ (c = None \/ exists cc, c = Some cc /\ digits_of_len 2 cc).
Proof.
  unfold p_tb_time. intros H.
  apply In_p_bind in H as [a' [r1 [H1 H]]].
  apply In_p_bind in H as [? [? [_ H]]].
  apply In_p_bind in H as [b' [r3 [H3 H]]].
  apply In_p_bind in H as [? [? [_ H]]].
  apply In_p_bind in H as [c' [r5 [H5 H]]].
  apply In_p_ret in H. injection H as -> -> -> _.
  apply In_p_d12 in H1. apply In_p_count in H3 as [_ [Lb Db]].
  split; [exact H1|]. split; [split; assumption|].
  apply In_p_opt in H5 as [[-> _]|[cc [-> Hc]]]; [left; reflexivity|].
  apply In_p_count in Hc as [_ [Lc Dc]]. right. exists cc. split; [reflexivity|split; assumption].
Qed.

Lemma digits_len_ne (n : nat) (u : str) : digits_of_len (S n) u -> u <> [].
Proof. intros [Hl _] ->. discriminate Hl. Qed.

(** Claim C4: every timestamp the two timeline parsers convert.  A VTT
    cue timing [hh:mm:ss.mmm] (either group of the cue regex, found by
    [re.search]) is split at [:] into three components and
    [parse_timestamp] gives [h*3600 + m*60 + s] with [s = float(ss.mmm)];
    a TurboScribe time [(\d{1,2}):(\d{2}):?(\d{2})?] gives
    [h*3600 + m*60 + s] when the third group is present and [m*60 + s]
    for the two-component form. *)
Theorem timestamp_conversion :
  (forall (line g1 g2 rest : str) (i : nat),
     re_search p_cue_timing line = Some (i, (g1, g2), rest) ->
     forall g, g = g1 \/ g = g2 ->
     exists hh mm ss zh zm qs,
       g = hh ++ [colon] ++ mm ++ [colon] ++ ss
       /\ py_int hh = Some zh /\ py_int mm = Some zm /\ py_float ss = Some qs
       /\ parse_timestamp g = Some (inject_Z (zh * 3600 + zm * 60) + qs))
  /\ (forall (s a b r : str) (c : option str),
     In ((a, b, c), r) (p_tb_time s) ->
     exists za zb, py_int a = Some za /\ py_int b = Some zb /\
       match c with
       | None => tb_seconds a b c = Some (za * 60 + zb)%Z
       | Some cc => exists zc, py_int cc = Some zc
                    /\ tb_seconds a b c = Some (za * 3600 + zb * 60 + zc)%Z
       end).
Proof.
  split.
  - intros line g1 g2 rest i Hs g Hg.
    apply search_from_In in Hs as [s' Hs]. apply In_p_cue_timing in Hs as [[s1 [r1 H1]] [s2 H2]].
    assert (Hsh : exists s0 r0, In (g, r0) (p_group p_vtt_time s0))
      by (destruct Hg as [->| ->]; eauto).
    destruct Hsh as [s0 [r0 Hsh]].
    apply In_p_group_vtt_time in Hsh as (hh & mm & ss & ms & Dh & Dm & Ds & Dms & ->).
    destruct (parse_timestamp_vtt_shape hh mm ss ms Dh Dm Ds Dms)
      as (zh & zm & qs & Ih & Im & Fs & Ht).
    exists hh, mm, (ss ++ "."%char :: ms), zh, zm, qs. auto.
  - intros s a b r c H. apply In_p_tb_time in H as [[Na Da] [[Lb Db] Hc]].
    assert (Nb : b <> []) by (intros ->; discriminate Lb).
    exists (digits_val 0 a), (digits_val 0 b).
    rewrite !py_int_digits by assumption. split; [reflexivity|]. split; [reflexivity|].
    destruct Hc as [->|[cc [-> [Lc Dc]]]].
    + unfold tb_seconds. simpl. rewrite !py_int_digits by assumption. reflexivity.
    + assert (Nc : cc <> []) by (intros ->; discriminate Lc).
      exists (digits_val 0 cc). rewrite py_int_digits by assumption. split; [reflexivity|].
      unfold tb_seconds. destruct cc as [|x cc]; [contradiction|]. simpl.
      rewrite !py_int_digits by (assumption || discriminate). reflexivity.
Qed.

Lemma timestamp_conversion_witness :
  re_search p_cue_timing (S_ "00:01:02.500 --> 01:00:00.000")
    = Some (0%nat, (S_ "00:01:02.500", S_ "01:00:00.000"), [])
  /\ parse_timestamp (S_ "00:01:02.500") = Some ((62 # 1) + (500 # 1000))%Q
  /\ In ((S_ "4", S_ "05", None), S_ ")") (p_tb_time (S_ "4:05)"))
  /\ tb_seconds (S_ "4") (S_ "05") None = Some 245%Z
  /\ exists hh mm ss zh zm qs,
       S_ "00:01:02.500" = hh ++ [colon] ++ mm ++ [colon] ++ ss
       /\ py_int hh = Some zh /\ py_int mm = Some zm /\ py_float ss = Some qs
       /\ parse_timestamp (S_ "00:01:02.500") = Some (inject_Z (zh * 3600 + zm * 60) + qs).
Proof.
  split; [vm_compute; reflexivity|]. split; [vm_compute; reflexivity|].
  split; [vm_compute; auto|]. split; [vm_compute; reflexivity|].
  apply (proj1 timestamp_conversion (S_ "00:01:02.500 --> 01:00:00.000")
           (S_ "00:01:02.500") (S_ "01:00:00.000") [] 0%nat).
  - vm_compute. reflexivity.
  - left. reflexivity.
Defined.

(* ------------------------------------------------------------------ *)
(** ** Text-role parser on a cue holding only a speaker tag *)

(** Claim C6 (the standard branch): [bare_tag_vtt] is detected as a
    standard VTT file, and [parse_vtt_without_speakers] returns one
    segment for its cue, [1.0 --> 2.0], whose text is empty: the text left
    after the [SPEAKER_n] tag is appended without the emptiness check the
    TurboScribe branch makes. *)
Theorem parse_vtt_without_speakers_keeps_empty_text :
  detect_vtt_format (S_ "a.vtt") bare_tag_vtt = standard
  /\ exists seg,
       parse_vtt_without_speakers (S_ "a.vtt") bare_tag_vtt = Some [seg]
       /\ start seg == 1 /\ end_ seg == 2 /\ text seg = [].
Proof.
  split; [vm_compute; reflexivity|].
  eexists. split; [vm_compute; reflexivity|].
  split; [|split]; vm_compute; reflexivity.
Qed.

(* ------------------------------------------------------------------ *)
(** ** Set iteration order and the orchestrator *)

Lemma dedup_In (l : list str) (x : str) : In x (dedup l) <-> In x l.
Proof.
  induction l as [|y t IH]; simpl; [reflexivity|].
  rewrite filter_In, IH. split.
  - intros [<-|[H _]]; auto.
  - intros [<-|H]; [left; reflexivity|].
    destruct (str_eqb x y) eqn:E.
    + apply str_eqb_eq in E as ->. left; reflexivity.
    + right. split; [exact H | reflexivity].
Qed.

Lemma dedup_NoDup (l : list str) : NoDup (dedup l).
Proof.
  induction l as [|y t IH]; simpl; constructor.
  - rewrite filter_In. intros [_ H]. rewrite str_eqb_refl in H. discriminate.
  - apply NoDup_filter, IH.
Qed.

Lemma dedup_set_order : set_iteration_order dedup.
Proof. intros l. split; [apply dedup_NoDup | apply dedup_In]. Qed.

Lemma rev_dedup_set_order : set_iteration_order (fun l => rev (dedup l)).
Proof.
  intros l. split.
  - apply NoDup_rev, dedup_NoDup.
  - intros x. rewrite <- in_rev. apply dedup_In.
Qed.

(** Claim C8: two runs of [align_with_llm] on the same timelines, with the
    same oracle returning a fixed answer, that differ only in the
    iteration order of [list(set(...))] (the speakers of the last ten
    aligned segments, which become the oracle's pseudo-candidates) produce
    different segment sequences: the last segment is given to Alice in one
    run and to Bob in the other.  Both orders are valid iteration orders
    of the set; CPython's order for strings depends on the hash seed. *)
Theorem align_with_llm_depends_on_set_order :
  set_iteration_order dedup
  /\ set_iteration_order (fun l => rev (dedup l))
  /\ option_map (map a_speaker)
       (align_with_llm true dedup (Some fixed_oracle)
          alternating_speakers five_then_far_texts)
     = Some (map S_ ["Alice"; "Bob"; "Alice"; "Bob"; "Alice"; "Alice"]%string)
  /\ option_map (map a_speaker)
       (align_with_llm true (fun l => rev (dedup l)) (Some fixed_oracle)
          alternating_speakers five_then_far_texts)
     = Some (map S_ ["Alice"; "Bob"; "Alice"; "Bob"; "Alice"; "Bob"]%string)
  /\ align_with_llm true dedup (Some fixed_oracle) alternating_speakers five_then_far_texts
     <> align_with_llm true (fun l => rev (dedup l)) (Some fixed_oracle)
          alternating_speakers five_then_far_texts.
Proof.
  assert (H1 : option_map (map a_speaker)
       (align_with_llm true dedup (Some fixed_oracle)
          alternating_speakers five_then_far_texts)
     = Some (map S_ ["Alice"; "Bob"; "Alice"; "Bob"; "Alice"; "Alice"]%string))
    by (vm_compute; reflexivity).
  assert (H2 : option_map (map a_speaker)
       (align_with_llm true (fun l => rev (dedup l)) (Some fixed_oracle)
          alternating_speakers five_then_far_texts)
     = Some (map S_ ["Alice"; "Bob"; "Alice"; "Bob"; "Alice"; "Bob"]%string))
    by (vm_compute; reflexivity).
  split; [apply dedup_set_order|]. split; [apply rev_dedup_set_order|].
  split; [exact H1|]. split; [exact H2|].
  intros E. rewrite E, H2 in H1. vm_compute in H1. discriminate H1.
Qed.

(* ------------------------------------------------------------------ *)
(** ** The confident-candidate rows of the orchestrator *)

Lemma Qltb_iff (a b : Q) : Qltb a b = true <-> a < b.
Proof.
  unfold Qltb. rewrite negb_true_iff. split.
  - intros H. apply Qnot_le_lt. intros Hle. apply Qle_bool_iff in Hle. congruence.
  - intros H. destruct (Qle_bool b a) eqn:E; [|reflexivity].
    apply Qle_bool_iff in E. exfalso. apply (Qlt_not_le _ _ H E).
Qed.

Lemma Qltb_false (a b : Q) : b <= a -> Qltb a b = false.
Proof.
  intros H. unfold Qltb. apply Qle_bool_iff in H. rewrite H. reflexivity.
Qed.

(** Whatever [ask_llm_for_speaker] returns names one of the candidates. *)
Lemma ask_llm_speaker_in (OPENAI_AVAILABLE : bool) (text_seg : VTTSegment)
    (cands : list CandidateEntry) (cb : list AlignedSegment) (ca : list VTTSegment)
    (client : option Oracle) (ls : option LLMStats) (r : LLMResult) (st' : option LLMStats) :
  ask_llm_for_speaker OPENAI_AVAILABLE text_seg cands cb ca client ls = Some (r, st') ->
  In (l_speaker r) (map ce_speaker cands).
Proof.
  assert (Herr : forall st0, llm_error_fallback cands st0 = Some (r, st') ->
                 In (l_speaker r) (map ce_speaker cands)).
  { intros st0. unfold llm_error_fallback. destruct cands as [|top rest]; [discriminate|].
    intros H. injection H as <- _. left. reflexivity. }
  assert (Hno : forall st0,
            match cands with
            | top :: _ => Some (mkLLMResult (ce_speaker top) (Some (ce_overlap_ratio top))
                                 (Some R_llm_not_available), st0)
            | [] => None
            end = Some (r, st') -> In (l_speaker r) (map ce_speaker cands)).
  { intros st0. destruct cands as [|top rest]; [discriminate|].
    intros H. injection H as <- _. left. reflexivity. }
  unfold ask_llm_for_speaker.
  destruct client as [oracle|]; [destruct OPENAI_AVAILABLE|]; try apply Hno.
  destruct (oracle _) as [|[[[spk|] conf rsn]|]]; try apply Herr.
  destruct (existsb (str_eqb spk) (map ce_speaker cands)) eqn:Hv.
  - intros H. injection H as <- _. apply existsb_str_eqb_In, Hv.
  - destruct cands as [|top rest]; [apply Herr|].
    intros H. injection H as <- _. left. reflexivity.
Qed.

(** Counterexample to claim C1: Alice covers 82% of the text segment and
    Bob 18%, so the top candidate's ratio is above 0.8, yet the segment is
    not accepted as [high_confidence]: the second ratio is above 0.15 and
    the segment goes to the oracle adapter ([llm_resolved]; without a
    client, Alice at confidence 0.82). *)
Lemma align_dominant_top_counterexample :
  (exists top second,
     resolve_candidates dominant_pair_speakers dominant_text = Some ([top; second], false)
     /\ c_speaker top = S_ "Alice" /\ c_overlap_ratio top == 82 # 100
     /\ c_overlap_ratio second == 18 # 100)
  /\ option_map (map (fun a => (a_speaker a, match_type a)))
       (align_with_llm false (fun l => l) None dominant_pair_speakers [dominant_text])
     = Some [(S_ "Alice", llm_resolved)].
Proof.
  split; [|vm_compute; reflexivity].
  do 2 eexists. split; [vm_compute; reflexivity|].
  split; [reflexivity|]. split; vm_compute; reflexivity.
Qed.

(** Claim C1 (amended): for a text segment without a speaker whose
    resolved candidate list is non-empty and whose top candidate has
    ratio [r > 0.8] (multiplier [m]): a single candidate is accepted with
    [high_confidence] at [min(0.99, r*m*1.1)]; with a second candidate of
    ratio above 0.15 the ambiguity row comes first and the segment goes to
    the oracle adapter, so any emitted segment is [llm_resolved] and names
    one of the candidates; otherwise the top candidate is accepted with
    [high_confidence] at [r*m], without the 1.1 bonus. *)
Theorem align_step_confident_top (OPENAI_AVAILABLE : bool) (set_iter : list str -> list str)
    (client : option Oracle) (speaker_vtt text_vtt : list VTTSegment) (i : nat)
    (text_seg : VTTSegment) (st : AlignState) (top : Candidate) (rest : list Candidate)
    (used_tolerance : bool) :
  speaker text_seg = [] ->
  resolve_candidates speaker_vtt text_seg = Some (top :: rest, used_tolerance) ->
  8 # 10 < c_overlap_ratio top ->
  let step := align_step OPENAI_AVAILABLE set_iter client speaker_vtt text_vtt i text_seg st in
  let r := c_overlap_ratio top in
  let m := c_confidence_multiplier top in
  match rest with
  | [] =>
      step = Some (emit (mkAlignedSegment (start text_seg) (end_ text_seg) (c_speaker top)
                          (text text_seg) (Qmin (99 # 100) (r * m * (11 # 10)))
                          high_confidence (R_single r used_tolerance) [Real top]) st)
  | second :: _ =>
      (15 # 100 < c_overlap_ratio second ->
         forall st', step = Some st' ->
         exists seg, aligned st' = aligned st ++ [seg] /\ match_type seg = llm_resolved
           /\ In (a_speaker seg) (map c_speaker (top :: rest)))
      /\ (c_overlap_ratio second <= 15 # 100 ->
         step = Some (emit (mkAlignedSegment (start text_seg) (end_ text_seg) (c_speaker top)
                             (text text_seg) (r * m) high_confidence
                             (R_dominant r (if used_tolerance then Some m else None))
                             (map Real (top :: rest))) st))
  end.
Proof.
  intros Hsp Hres Hr step r m. unfold step, align_step. rewrite Hsp, Hres.
  apply Qltb_iff in Hr.
  destruct rest as [|second rest'].
  - simpl List.length. rewrite Hr. reflexivity.
  - simpl List.length. cbn [Nat.eqb andb]. split.
    + intros H2. apply Qltb_iff in H2. rewrite H2.
      intros st' Hst.
      destruct (ask_llm_for_speaker _ _ _ _ _ _ _) as [[res [ls'|]]|] eqn:Ha;
        [|discriminate|discriminate].
      destruct (l_confidence res), (l_reasoning res); try discriminate.
      injection Hst as <-. eexists. split; [reflexivity|]. split; [reflexivity|].
      apply ask_llm_speaker_in in Ha. simpl. rewrite map_map in Ha. exact Ha.
    + intros H2. rewrite (Qltb_false _ _ H2). reflexivity.
Qed.

Lemma align_step_confident_top_witness :
  exists top second used_tolerance,
    speaker dominant_text = []
    /\ resolve_candidates dominant_pair_speakers dominant_text
       = Some ([top; second], used_tolerance)
    /\ 8 # 10 < c_overlap_ratio top
    /\ 15 # 100 < c_overlap_ratio second
    /\ (forall st', align_step false (fun l => l) None dominant_pair_speakers
                      [dominant_text] 0 dominant_text initial_state = Some st' ->
         exists seg, aligned st' = aligned initial_state ++ [seg]
           /\ match_type seg = llm_resolved /\ In (a_speaker seg) (map c_speaker [top; second])).
Proof.
  assert (Hres : resolve_candidates dominant_pair_speakers dominant_text
                 = Some ([mkCandidate (S_ "Alice") (82 # 10) (82 # 100) (1 # 1) false;
                          mkCandidate (S_ "Bob") (18 # 10) (18 # 100) (1 # 1) false], false))
    by (vm_compute; reflexivity).
  assert (Hr : 8 # 10 < 82 # 100) by (vm_compute; reflexivity).
  assert (H2 : 15 # 100 < 18 # 100) by (vm_compute; reflexivity).
  do 3 eexists. split; [reflexivity|]. split; [exact Hres|].
  split; [exact Hr|]. split; [exact H2|].
  exact (proj1 (align_step_confident_top false (fun l => l) None dominant_pair_speakers
                  [dominant_text] 0 dominant_text initial_state _ _ false
                  eq_refl Hres Hr) H2).
Defined.

(* ------------------------------------------------------------------ *)
(** ** The fallback row of the orchestrator *)

Lemma lastn_short {A} (n : nat) (l : list A) : (List.length l <= n)%nat -> lastn n l = l.
Proof.
  intros H. unfold lastn. replace (List.length l - n)%nat with 0%nat by lia. reflexivity.
Qed.

(** [smart_fallback] when no speaker segment starts within the time
    window: the previous speaker, else the globally nearest speaker, else
    the no-speaker sentinel. *)
Lemma smart_fallback_no_nearby (text_seg : VTTSegment) (speaker_vtt : list VTTSegment)
    (context_before : list AlignedSegment) :
  nearby_speakers text_seg speaker_vtt = [] ->
  let r := smart_fallback text_seg speaker_vtt context_before in
  match rev context_before with
  | last_seg :: _ =>
      fb_speaker r = a_speaker last_seg /\ fb_confidence r = 35 # 100
      /\ fb_reasoning r = R_previous_speaker
  | [] =>
      match speaker_vtt with
      | _ :: _ => fb_confidence r = 30 # 100 /\ fb_reasoning r = R_global_nearest
      | [] => fb_speaker r = S_ "Unknown" /\ fb_confidence r = 0
              /\ fb_reasoning r = R_no_speakers
      end
  end.
Proof.
  intros Hn r. unfold r, smart_fallback. rewrite Hn.
  destruct (rev context_before) as [|last_seg more].
  - destruct speaker_vtt; simpl; auto.
  - destruct (3 <=? List.length context_before)%nat;
      [destruct (3 <=? count_speaker (a_speaker last_seg) (lastn 5 context_before))%nat|];
      simpl; auto.
Qed.

(** Counterexample to claim C2: Bob speaks only at [100, 105]; the text
    segments are at [0, 5] and [50, 55].  The second has no candidate even
    with tolerance, no speaker segment within 10 seconds and one prior
    aligned segment, and gets the fallback confidence 0.35 (the previous
    speaker), above 0.30. *)
Lemma align_no_nearby_counterexample :
  resolve_candidates far_speaker (nth 1 two_far_texts (mkseg 0 0 "" "")) = Some ([], true)
  /\ nearby_speakers (nth 1 two_far_texts (mkseg 0 0 "" "")) far_speaker = []
  /\ option_map (map (fun a => (a_speaker a, confidence a, match_type a)))
       (align_with_llm false (fun l => l) None far_speaker two_far_texts)
     = Some [(S_ "Bob", 30 # 100, fallback); (S_ "Bob", 35 # 100, fallback)].
Proof. split; [|split]; vm_compute; reflexivity. Qed.

(** Claim C2 (amended): a text segment without a speaker, with no
    candidate even after the tolerant resolve, no speaker segment starting
    within 10 seconds of it and fewer than 5 prior aligned segments, gets a
    [fallback] segment whose confidence is 0.35 (strategy 3, the previous
    aligned speaker) when a segment was aligned before it, 0.30 (strategy
    4, the globally nearest speaker) when it is the first and the speaker
    timeline is non-empty, and 0 with speaker [Unknown] (strategy 5)
    otherwise: at most 0.35, and at most 0.30 only without a prior
    segment. *)
Theorem align_step_no_nearby_speaker (OPENAI_AVAILABLE : bool)
    (set_iter : list str -> list str) (client : option Oracle)
    (speaker_vtt text_vtt : list VTTSegment) (i : nat) (text_seg : VTTSegment)
    (st : AlignState) (used_tolerance : bool) :
  speaker text_seg = [] ->
  resolve_candidates speaker_vtt text_seg = Some ([], used_tolerance) ->
  nearby_speakers text_seg speaker_vtt = [] ->
  (List.length (aligned st) < 5)%nat ->
  exists seg,
    align_step OPENAI_AVAILABLE set_iter client speaker_vtt text_vtt i text_seg st
    = Some (emit seg st)
    /\ match_type seg = fallback
    /\ match rev (aligned st) with
       | last_seg :: _ => a_speaker seg = a_speaker last_seg /\ confidence seg = 35 # 100
       | [] =>
           match speaker_vtt with
           | _ :: _ => confidence seg = 30 # 100
           | [] => a_speaker seg = S_ "Unknown" /\ confidence seg = 0
           end
       end.
Proof.
  intros Hsp Hres Hn Hlen. unfold align_step. rewrite Hsp, Hres.
  rewrite (lastn_short 10 (aligned st)) by lia.
  pose proof (smart_fallback_no_nearby text_seg speaker_vtt (aligned st) Hn) as Hfb.
  cbv zeta in Hfb.
  assert (Hc : (5 <=? List.length (aligned st))%nat = false) by (apply Nat.leb_gt; lia).
  eexists. split.
  - destruct client; [rewrite Hc|]; reflexivity.
  - split; [reflexivity|]. simpl.
    destruct (rev (aligned st)); [destruct speaker_vtt|]; tauto.
Qed.

Lemma align_step_no_nearby_speaker_witness :
  speaker (mkseg 0 5 "" "a") = []
  /\ resolve_candidates far_speaker (mkseg 0 5 "" "a") = Some ([], true)
  /\ nearby_speakers (mkseg 0 5 "" "a") far_speaker = []
  /\ (List.length (aligned initial_state) < 5)%nat
  /\ exists seg,
       align_step false (fun l => l) None far_speaker two_far_texts 0 (mkseg 0 5 "" "a")
         initial_state = Some (emit seg initial_state)
       /\ match_type seg = fallback /\ confidence seg = 30 # 100.
Proof.
  assert (H1 : speaker (mkseg 0 5 "" "a") = []) by reflexivity.
  assert (H2 : resolve_candidates far_speaker (mkseg 0 5 "" "a") = Some ([], true))
    by (vm_compute; reflexivity).
  assert (H3 : nearby_speakers (mkseg 0 5 "" "a") far_speaker = [])
    by (vm_compute; reflexivity).
  assert (H4 : (List.length (aligned initial_state) < 5)%nat) by (simpl; lia).
  split; [exact H1|]. split; [exact H2|]. split; [exact H3|]. split; [exact H4|].
  destruct (align_step_no_nearby_speaker false (fun l => l) None far_speaker two_far_texts 0
              (mkseg 0 5 "" "a") initial_state true H1 H2 H3 H4) as [seg [Hs [Hm Hc]]].
  exists seg. split; [exact Hs|]. split; [exact Hm|]. exact Hc.
Defined.

(* ------------------------------------------------------------------ *)
(** ** Candidate aggregation *)

Lemma str_eqb_sym (a b : str) : str_eqb a b = str_eqb b a.
Proof.
  destruct (str_eqb a b) eqn:E1, (str_eqb b a) eqn:E2; try reflexivity.
  - apply str_eqb_eq in E1 as ->. rewrite str_eqb_refl in E2. discriminate.
  - apply str_eqb_eq in E2 as ->. rewrite str_eqb_refl in E1. discriminate.
Qed.

Lemma str_eqb_neq (a b : str) : str_eqb a b = false <-> a <> b.
Proof.
  split.
  - intros H ->. rewrite str_eqb_refl in H. discriminate.
  - intros H. destruct (str_eqb a b) eqn:E; [apply str_eqb_eq in E; contradiction|reflexivity].
Qed.

Lemma add_to_totals_speakers (c : RawCandidate) (T : list Candidate) :
  map c_speaker (add_to_totals c T)
  = if existsb (str_eqb (rc_speaker c)) (map c_speaker T) then map c_speaker T
    else map c_speaker T ++ [rc_speaker c].
Proof.
  induction T as [|e T IH]; simpl; [reflexivity|].
  rewrite (str_eqb_sym (rc_speaker c) (c_speaker e)).
  destruct (str_eqb (c_speaker e) (rc_speaker c)); simpl; [reflexivity|].
  rewrite IH. destruct (existsb _ _); reflexivity.
Qed.

Lemma add_to_totals_total (c : RawCandidate) (T : list Candidate) (s : str) :
  total_of (add_to_totals c T) s
  == total_of T s + (if str_eqb (rc_speaker c) s then rc_overlap_duration c else 0).
Proof.
  induction T as [|e T IH]; simpl.
  - destruct (str_eqb (rc_speaker c) s); simpl; ring.
  - destruct (str_eqb (c_speaker e) (rc_speaker c)) eqn:Ee; simpl.
    + apply str_eqb_eq in Ee. rewrite Ee.
      destruct (str_eqb (rc_speaker c) s); [reflexivity|ring].
    + destruct (str_eqb (c_speaker e) s) eqn:Es.
      * apply str_eqb_eq in Es. subst s.
        rewrite (str_eqb_sym (rc_speaker c)), Ee. ring.
      * exact IH.
Qed.

Lemma fold_totals_total (l : list RawCandidate) (T : list Candidate) (s : str) :
  total_of (fold_left (fun d c => add_to_totals c d) l T) s == total_of T s + overlap_sum s l.
Proof.
  revert T; induction l as [|c l IH]; intros T; simpl; [ring|].
  rewrite IH, add_to_totals_total. ring.
Qed.

Lemma speaker_totals_total (l : list RawCandidate) (s : str) :
  total_of (speaker_totals l) s == overlap_sum s l.
Proof. unfold speaker_totals. rewrite fold_totals_total. simpl. ring. Qed.

Lemma total_of_In (T : list Candidate) (e : Candidate) :
  NoDup (map c_speaker T) -> In e T -> total_of T (c_speaker e) = c_overlap_duration e.
Proof.
  induction T as [|e0 T IH]; simpl; [intros _ []|].
  intros Hnd [<-|Hin]; [rewrite str_eqb_refl; reflexivity|].
  inversion Hnd as [|? ? Hni Hnd']; subst.
  destruct (str_eqb (c_speaker e0) (c_speaker e)) eqn:E.
  - apply str_eqb_eq in E. exfalso. apply Hni. rewrite E. apply in_map, Hin.
  - apply IH; assumption.
Qed.

Lemma overlap_sum_perm (s : str) (l1 l2 : list RawCandidate) :
  Permutation l1 l2 -> overlap_sum s l1 == overlap_sum s l2.
Proof.
  induction 1; simpl.
  - reflexivity.
  - rewrite IHPermutation. reflexivity.
  - ring.
  - rewrite IHPermutation1. exact IHPermutation2.
Qed.

Lemma filter_filter_and {A} (p q : A -> bool) (l : list A) :
  filter p (filter q l) = filter (fun y => q y && p y) l.
Proof.
  induction l as [|y l IH]; simpl; [reflexivity|].
  destruct (q y); simpl; [destruct (p y)|]; simpl; rewrite ?IH; reflexivity.
Qed.

Lemma fold_totals_speakers (l : list RawCandidate) (T : list Candidate) :
  map c_speaker (fold_left (fun d c => add_to_totals c d) l T)
  = map c_speaker T
    ++ filter (fun y => negb (existsb (str_eqb y) (map c_speaker T)))
              (dedup (map rc_speaker l)).
Proof.
  revert T; induction l as [|c l IH]; intros T; simpl; [symmetry; apply app_nil_r|].
  rewrite IH, add_to_totals_speakers.
  set (A := map c_speaker T). set (x := rc_speaker c). set (D := dedup (map rc_speaker l)).
  destruct (existsb (str_eqb x) A) eqn:Hx; simpl.
  - f_equal. rewrite filter_filter_and. apply filter_ext.
    intros y. destruct (str_eqb y x) eqn:Hy; simpl; [|reflexivity].
    apply str_eqb_eq in Hy. subst y. rewrite Hx. reflexivity.
  - rewrite <- app_assoc. simpl. f_equal. f_equal.
    rewrite filter_filter_and. apply filter_ext. intros y.
    rewrite existsb_app. simpl. rewrite orb_false_r.
    destruct (existsb (str_eqb y) A), (str_eqb y x); reflexivity.
Qed.

Lemma speaker_totals_speakers (l : list RawCandidate) :
  map c_speaker (speaker_totals l) = dedup (map rc_speaker l).
Proof.
  unfold speaker_totals. rewrite fold_totals_speakers. simpl. apply filter_true.
Qed.

Lemma calculate_overlap_pos (a b c d : Q) : 0 < calculate_overlap a b c d -> 0 < d - c.
Proof.
  unfold calculate_overlap. intros H.
  apply Q.max_lt_iff in H as [H|H]; [exfalso; apply (Qlt_irrefl 0 H)|].
  pose proof (Q.le_min_r b d). pose proof (Q.le_max_r a c). lra.
Qed.

Lemma raw_candidate_duration (text_seg spk_seg : VTTSegment) (tolerance : Q)
    (c : RawCandidate) :
  raw_candidate text_seg tolerance spk_seg = Some c -> 0 < end_ text_seg - start text_seg.
Proof.
  unfold raw_candidate.
  destruct (Qltb 0 tolerance && Qeq_bool _ 0).
  - destruct (Qltb 0 (calculate_overlap _ _ _ _)) eqn:H; [|discriminate].
    intros _. apply Qltb_iff, calculate_overlap_pos in H. exact H.
  - destruct (Qltb 0 (calculate_overlap _ _ _ _)) eqn:H; [|discriminate].
    intros _. apply Qltb_iff, calculate_overlap_pos in H. exact H.
Qed.

Lemma raw_candidates_duration (text_seg : VTTSegment) (segs : list VTTSegment)
    (tolerance : Q) :
  raw_candidates text_seg segs tolerance <> [] -> 0 < end_ text_seg - start text_seg.
Proof.
  induction segs as [|s segs IH]; simpl; [contradiction|].
  destruct (raw_candidate text_seg tolerance s) eqn:H.
  - intros _. apply (raw_candidate_duration _ _ _ _ H).
  - exact IH.
Qed.

Lemma map_filter_pointwise {A B} (f : A -> B) (p : A -> bool) (q : B -> bool) (l : list A) :
  (forall x, In x l -> p x = q (f x)) -> map f (filter p l) = filter q (map f l).
Proof.
  induction l as [|x l IH]; simpl; intros H; [reflexivity|].
  rewrite (H x (or_introl eq_refl)).
  destruct (q (f x)); simpl; rewrite IH by (intros y Hy; apply H; right; exact Hy);
    reflexivity.
Qed.

Lemma Qeq_bool_compat (a b d : Q) : a == b -> Qeq_bool a d = Qeq_bool b d.
Proof.
  intros Hab. destruct (Qeq_bool a d) eqn:E1, (Qeq_bool b d) eqn:E2; try reflexivity.
  - apply Qeq_bool_iff in E1. assert (H : b == d) by (rewrite <- Hab; exact E1).
    apply Qeq_bool_iff in H. congruence.
  - apply Qeq_bool_iff in E2. assert (H : a == d) by (rewrite Hab; exact E2).
    apply Qeq_bool_iff in H. congruence.
Qed.

Lemma In_map_sort_desc {A B} (key : A -> Q) (f : A -> B) (l : list A) (y : B) :
  In y (map f (sort_desc key l)) <-> In y (map f l).
Proof.
  split; apply Permutation_in, Permutation_map; [|symmetry]; apply sort_desc_perm.
Qed.

(** The totals built from the stably sorted per-segment candidates: one
    entry per speaker, in order of first appearance, with the summed
    overlap. *)
Lemma speaker_totals_spec (raw : list RawCandidate) :
  let T := speaker_totals (sort_desc rc_overlap_duration raw) in
  map c_speaker T = dedup (map rc_speaker (sort_desc rc_overlap_duration raw))
  /\ NoDup (map c_speaker T)
  /\ (forall s, In s (map c_speaker T) <-> In s (map rc_speaker raw))
  /\ (forall e, In e T -> c_overlap_duration e == overlap_sum (c_speaker e) raw).
Proof.
  intros T. assert (Hsp : map c_speaker T = dedup (map rc_speaker (sort_desc rc_overlap_duration raw)))
    by apply speaker_totals_speakers.
  assert (Hnd : NoDup (map c_speaker T)) by (rewrite Hsp; apply dedup_NoDup).
  split; [exact Hsp|]. split; [exact Hnd|]. split.
  - intros s. rewrite Hsp, dedup_In. apply In_map_sort_desc.
  - intros e He. rewrite <- (total_of_In T e Hnd He). unfold T.
    rewrite speaker_totals_total. apply overlap_sum_perm, sort_desc_perm.
Qed.

(** Claim C3: [find_speaker_candidates] returns one entry per distinct
    speaker among the per-segment candidates; each entry's overlap is the
    sum of that speaker's per-segment overlaps and its ratio is that sum
    divided by the text duration (with a text duration of at most 0 there
    is no candidate, so no division); the list is sorted by summed overlap,
    descending, and entries of equal overlap keep the order in which their
    speakers first appear among the per-segment candidates sorted
    (stably) by overlap, the insertion order of the totals dict. *)
Theorem find_speaker_candidates_aggregates (text_seg : VTTSegment)
    (speaker_segs : list VTTSegment) (tolerance : Q) :
  let raw := raw_candidates text_seg speaker_segs tolerance in
  let text_duration := end_ text_seg - start text_seg in
  exists res,
    find_speaker_candidates text_seg speaker_segs tolerance = Some res
    /\ NoDup (map c_speaker res)
    /\ (forall s, In s (map c_speaker res) <-> In s (map rc_speaker raw))
    /\ (forall c, In c res ->
          c_overlap_duration c == overlap_sum (c_speaker c) raw
          /\ c_overlap_ratio c = c_overlap_duration c / text_duration)
    /\ (text_duration <= 0 -> res = [])
    /\ Sorted (desc c_overlap_duration) res
    /\ (forall d,
          map c_speaker (filter (fun c => Qeq_bool (c_overlap_duration c) d) res)
          = filter (fun s => Qeq_bool (overlap_sum s raw) d)
                   (dedup (map rc_speaker (sort_desc rc_overlap_duration raw)))).
Proof.
  intros raw text_duration.
  destruct (speaker_totals_spec raw) as (Hsp & Hnd & Hin & Hdur).
  set (T := speaker_totals (sort_desc rc_overlap_duration raw)) in *.
  unfold find_speaker_candidates. fold raw. fold text_duration. fold T.
  rewrite <- Hsp.
  assert (Hties : forall d, map c_speaker (filter (fun c => Qeq_bool (c_overlap_duration c) d) T)
                  = filter (fun s => Qeq_bool (overlap_sum s raw) d) (map c_speaker T)).
  { intros d. apply map_filter_pointwise. intros e He. apply Qeq_bool_compat, Hdur, He. }
  destruct T as [|e0 T'] eqn:HT.
  - simpl. eexists. split; [reflexivity|].
    split; [constructor|]. split; [exact Hin|]. split; [intros c []|].
    split; [reflexivity|]. split; [constructor|]. intros d. reflexivity.
  - assert (Hpos : 0 < text_duration).
    { apply (raw_candidates_duration text_seg speaker_segs tolerance). fold raw.
      intros Hr. rewrite Hr in Hsp. simpl in Hsp. discriminate Hsp. }
    unfold recalculate_ratios. rewrite <- HT.
    replace (Qeq_bool text_duration 0) with false.
    2:{ symmetry. apply not_true_iff_false. intros E. apply Qeq_bool_iff in E.
        rewrite E in Hpos. apply (Qlt_irrefl 0 Hpos). }
    set (recalc := fun e => mkCandidate (c_speaker e) (c_overlap_duration e)
                              (c_overlap_duration e / text_duration)
                              (c_confidence_multiplier e) (c_used_tolerance e)).
    assert (Hm : map c_speaker (map recalc T) = map c_speaker T)
      by (rewrite map_map; reflexivity).
    eexists. split; [reflexivity|].
    rewrite <- HT in Hnd, Hin, Hdur, Hties.
    split.
    { apply (Permutation_NoDup (l := map c_speaker T)); [|exact Hnd].
      rewrite <- Hm. symmetry. apply Permutation_map, sort_desc_perm. }
    split.
    { intros s. rewrite In_map_sort_desc, Hm. apply Hin. }
    split.
    { intros c Hc. apply sort_desc_In, in_map_iff in Hc as [e [<- He]].
      split; [exact (Hdur e He) | reflexivity]. }
    split.
    { intros Hle. exfalso. apply (Qlt_not_le _ _ Hpos Hle). }
    split; [apply sort_desc_sorted|].
    intros d. rewrite sort_desc_filter, filter_map_swap, map_map. simpl.
    rewrite <- Hties. reflexivity.
Qed.

(* ================================================================== *)
(** * Further properties *)

(* ------------------------------------------------------------------ *)
(** ** Overlap, candidates, fallback and the alignment loop *)

(** [calculate_overlap] of two well-formed intervals lies between 0 and
    the length of each interval. *)
Theorem calculate_overlap_bounds (a_s a_e b_s b_e : Q) :
  a_s <= a_e -> b_s <= b_e ->
  0 <= calculate_overlap a_s a_e b_s b_e
  /\ calculate_overlap a_s a_e b_s b_e <= a_e - a_s
  /\ calculate_overlap a_s a_e b_s b_e <= b_e - b_s.
Proof.
  intros Ha Hb. unfold calculate_overlap.
  pose proof (Q.le_min_l a_e b_e). pose proof (Q.le_min_r a_e b_e).
  pose proof (Q.le_max_l a_s b_s). pose proof (Q.le_max_r a_s b_s).
  split; [apply Q.le_max_l|]. split; apply Q.max_lub; lra.
Qed.

Lemma calculate_overlap_bounds_witness :
  0 <= calculate_overlap 0 2 1 4
  /\ calculate_overlap 0 2 1 4 <= 2 - 0 /\ calculate_overlap 0 2 1 4 <= 4 - 1.
Proof. apply calculate_overlap_bounds; lra. Defined.

Lemma raw_candidate_fields (text_seg spk_seg : VTTSegment) (tolerance : Q) (c : RawCandidate) :
  raw_candidate text_seg tolerance spk_seg = Some c -> raw_fields tolerance c.
Proof.
  unfold raw_candidate. cbv zeta.
  destruct (Qltb 0 tolerance && Qeq_bool _ 0) eqn:Hb.
  - apply andb_prop in Hb as [Ht _]. apply Qltb_iff in Ht.
    destruct (Qltb 0 (calculate_overlap _ _ _ _)) eqn:Ho; [|discriminate].
    apply Qltb_iff in Ho.
    assert (Hg : 0 <= Qmin (Qabs (end_ spk_seg - start text_seg))
                           (Qabs (end_ text_seg - start spk_seg)))
      by (apply Q.min_glb; apply Qabs_nonneg).
    set (gap := Qmin _ _) in *.
    assert (Hq : 0 <= gap / (tolerance * 2)) by (apply Qle_shift_div_l; lra).
    intros H; injection H as <-.
    unfold raw_fields; cbn [rc_overlap_duration rc_confidence_multiplier rc_used_tolerance].
    split; [exact Ho|]. split; [split; [apply Q.le_max_l | apply Q.max_lub; lra]|].
    split; [discriminate | intros _; exact Ht].
  - destruct (Qltb 0 (calculate_overlap _ _ _ _)) eqn:Ho; [|discriminate].
    intros H; injection H as <-. apply Qltb_iff in Ho.
    unfold raw_fields; cbn [rc_overlap_duration rc_confidence_multiplier rc_used_tolerance].
    split; [exact Ho|]. split; [split; lra|].
    split; [intros _; reflexivity | discriminate].
Qed.

Lemma raw_candidates_fields (text_seg : VTTSegment) (segs : list VTTSegment) (tolerance : Q) :
  Forall (raw_fields tolerance) (raw_candidates text_seg segs tolerance).
Proof.
  apply Forall_forall. intros c Hc. unfold raw_candidates in Hc.
  apply in_flat_map in Hc as [s [_ Hs]].
  destruct (raw_candidate text_seg tolerance s) eqn:E; [|destruct Hs].
  destruct Hs as [<-|[]]. exact (raw_candidate_fields _ _ _ _ E).
Qed.

Lemma add_to_totals_fields (tolerance : Q) (c : RawCandidate) (T : list Candidate) :
  raw_fields tolerance c -> Forall (total_fields tolerance) T ->
  Forall (total_fields tolerance) (add_to_totals c T).
Proof.
  intros Hc. induction T as [|e T IH]; simpl; intros HT.
  - destruct Hc as (Hd & Hm & Hf & Ht). constructor; [|constructor].
    unfold total_fields; simpl. split; [lra|]. auto.
  - inversion HT as [|? ? He HT']; subst.
    destruct (str_eqb (c_speaker e) (rc_speaker c)).
    + constructor; [|exact HT']. destruct He as (Hd & Hm & Hf & Ht).
      destruct Hc as (Hd' & _).
      unfold total_fields; simpl. split; [lra|]. auto.
    + constructor; [exact He | apply IH, HT'].
Qed.

Lemma speaker_totals_fields (tolerance : Q) (raw : list RawCandidate) :
  Forall (raw_fields tolerance) raw -> Forall (total_fields tolerance) (speaker_totals raw).
Proof.
  unfold speaker_totals. intros H.
  assert (Hg : forall T, Forall (total_fields tolerance) T ->
               Forall (total_fields tolerance) (fold_left (fun d c => add_to_totals c d) raw T)).
  { induction H as [|c raw Hc Hr IH]; simpl; intros T HT; [exact HT|].
    apply IH, add_to_totals_fields; assumption. }
  apply Hg. constructor.
Qed.

(** Every candidate [find_speaker_candidates] returns has a positive
    overlap and ratio, a confidence multiplier in [[0.85, 1]] that is 1
    unless the tolerance was used, and the tolerance flag is set only
    with a positive tolerance. *)
Theorem find_speaker_candidates_fields (text_seg : VTTSegment)
    (speaker_segs : list VTTSegment) (tolerance : Q) (res : list Candidate) :
  find_speaker_candidates text_seg speaker_segs tolerance = Some res ->
  forall c, In c res ->
    0 < c_overlap_duration c /\ 0 < c_overlap_ratio c
    /\ (85 # 100 <= c_confidence_multiplier c /\ c_confidence_multiplier c <= 1)
    /\ (c_used_tolerance c = false -> c_confidence_multiplier c == 1)
    /\ (c_used_tolerance c = true -> 0 < tolerance).
Proof.
  unfold find_speaker_candidates.
  set (raw := raw_candidates text_seg speaker_segs tolerance).
  set (T := speaker_totals (sort_desc rc_overlap_duration raw)).
  assert (HF : Forall (total_fields tolerance) T).
  { apply speaker_totals_fields. apply Forall_forall. intros c Hc.
    apply sort_desc_In in Hc. revert c Hc. apply Forall_forall, raw_candidates_fields. }
  unfold recalculate_ratios.
  destruct T as [|e0 T'] eqn:HT.
  - intros H; injection H as <-. intros c [].
  - assert (Hpos : 0 < end_ text_seg - start text_seg).
    { apply (raw_candidates_duration text_seg speaker_segs tolerance). fold raw.
      intros Hr. pose proof (speaker_totals_speakers (sort_desc rc_overlap_duration raw)) as Hs.
      fold T in Hs. rewrite HT, Hr in Hs. discriminate Hs. }
    rewrite <- HT in HF |- *.
    destruct (Qeq_bool (end_ text_seg - start text_seg) 0) eqn:Hz.
    { apply Qeq_bool_iff in Hz. rewrite Hz in Hpos. destruct (Qlt_irrefl 0 Hpos). }
    intros H; injection H as <-. intros c Hc.
    apply sort_desc_In, in_map_iff in Hc as [e [<- He]].
    rewrite Forall_forall in HF. destruct (HF e He) as (Hd & Hm & Hf & Ht). simpl.
    split; [exact Hd|]. split; [|auto].
    apply Qlt_shift_div_l; [exact Hpos | lra].
Qed.

Lemma find_speaker_candidates_fields_witness :
  exists res c,
    find_speaker_candidates dominant_text dominant_pair_speakers 0 = Some res /\ In c res
    /\ 0 < c_overlap_duration c /\ 0 < c_overlap_ratio c
    /\ (85 # 100 <= c_confidence_multiplier c /\ c_confidence_multiplier c <= 1)
    /\ (c_used_tolerance c = false -> c_confidence_multiplier c == 1)
    /\ (c_used_tolerance c = true -> 0 < 0).
Proof.
  set (res := match find_speaker_candidates dominant_text dominant_pair_speakers 0 with
              | Some r => r | None => [] end).
  assert (Hf : find_speaker_candidates dominant_text dominant_pair_speakers 0 = Some res)
    by (vm_compute; reflexivity).
  exists res, (hd (mkCandidate [] 0 0 0 false) res).
  assert (Hi : In (hd (mkCandidate [] 0 0 0 false) res) res) by (vm_compute; left; reflexivity).
  split; [exact Hf|]. split; [exact Hi|].
  exact (find_speaker_candidates_fields dominant_text dominant_pair_speakers 0 res Hf _ Hi).
Defined.




Lemma ask_llm_stats (OPENAI_AVAILABLE : bool) (text_seg : VTTSegment)
    (cands : list CandidateEntry) (cb : list AlignedSegment) (ca : list VTTSegment)
    (client : option Oracle) (ls ls' : LLMStats) (r : LLMResult) :
  ask_llm_for_speaker OPENAI_AVAILABLE text_seg cands cb ca client (Some ls) = Some (r, Some ls') ->
  ls' = bump_fallbacks ls
  \/ (client <> None /\ (ls' = ls \/ ls' = bump_actual_calls ls)).
Proof.
  unfold ask_llm_for_speaker, llm_error_fallback. cbv zeta. intros H.
  repeat match type of H with
         | context[match ?x with _ => _ end] =>
             let E := fresh "E" in destruct x eqn:E
         end;
    try discriminate H; injection H as _ <-;
    first [left; reflexivity
          | right; split; [discriminate | first [left; reflexivity | right; reflexivity]]].
Qed.

Lemma ask_llm_no_client (OPENAI_AVAILABLE : bool) (text_seg : VTTSegment)
    (top : CandidateEntry) (rest : list CandidateEntry) (cb : list AlignedSegment)
    (ca : list VTTSegment) (ls : LLMStats) :
  exists c rsn,
    ask_llm_for_speaker OPENAI_AVAILABLE text_seg (top :: rest) cb ca None (Some ls)
    = Some (mkLLMResult (ce_speaker top) (Some c) (Some rsn), Some (bump_fallbacks ls)).
Proof. eexists; eexists. reflexivity. Qed.

Lemma count_type_snoc (m : MatchType) (l : list AlignedSegment) (a : AlignedSegment) :
  count_type m (l ++ [a])
  = (count_type m l + if match_type_eqb (match_type a) m then 1 else 0)%nat.
Proof.
  unfold count_type. rewrite filter_app, length_app. simpl.
  destruct (match_type_eqb (match_type a) m); reflexivity.
Qed.

Lemma match_counts_snoc (l : list AlignedSegment) (a : AlignedSegment) :
  match_counts (l ++ [a]) = count_match (match_type a) (match_counts l).
Proof.
  unfold match_counts. rewrite !count_type_snoc.
  destruct (match_type a); simpl; rewrite !Nat.add_0_r, ?Nat.add_1_r; reflexivity.
Qed.

(** One step of the loop appends one aligned segment carrying the text
    segment's timing and text, counts its match type, and changes
    [llm_stats] only by an oracle request after bumping [attempts]. *)
Lemma align_step_emits (OPENAI_AVAILABLE : bool) (set_iter : list str -> list str)
    (client : option Oracle) (speaker_vtt text_vtt : list VTTSegment) (i : nat)
    (t : VTTSegment) (st st' : AlignState) :
  align_step OPENAI_AVAILABLE set_iter client speaker_vtt text_vtt i t st = Some st' ->
  exists a, aligned st' = aligned st ++ [a]
    /\ a_start a = start t /\ a_end a = end_ t /\ a_text a = text t
    /\ stats st' = count_match (match_type a) (stats st)
    /\ (llm_stats st' = llm_stats st
        \/ exists cands cb ca r,
             ask_llm_for_speaker OPENAI_AVAILABLE t cands cb ca client
               (Some (bump_attempts (llm_stats st))) = Some (r, Some (llm_stats st'))).
Proof.
  unfold align_step, emit, emit_llm. cbv zeta. intros H.
  repeat match type of H with
         | context[match ?x with _ => _ end] =>
             let E := fresh "E" in destruct x eqn:E
         end;
    try discriminate H;
    injection H as <-; eexists;
    (split; [reflexivity|]); (split; [reflexivity|]); (split; [reflexivity|]);
    (split; [reflexivity|]); (split; [reflexivity|]);
    first [left; reflexivity | right; do 4 eexists; eassumption].
Qed.

Lemma align_step_llm_stats (OPENAI_AVAILABLE : bool) (set_iter : list str -> list str)
    (client : option Oracle) (speaker_vtt text_vtt : list VTTSegment) (i : nat)
    (t : VTTSegment) (st st' : AlignState) :
  align_step OPENAI_AVAILABLE set_iter client speaker_vtt text_vtt i t st = Some st' ->
  let ls := llm_stats st in let ls' := llm_stats st' in
  ((fallbacks ls + actual_calls ls <= attempts ls)%nat ->
   (fallbacks ls' + actual_calls ls' <= attempts ls')%nat)
  /\ (client = None -> fallbacks ls = attempts ls /\ actual_calls ls = 0%nat ->
      fallbacks ls' = attempts ls' /\ actual_calls ls' = 0%nat)
  /\ (attempts ls' <= S (attempts ls))%nat.
Proof.
  intros H. destruct (align_step_emits _ _ _ _ _ _ _ _ _ H) as (a & _ & _ & _ & _ & _ & Hl).
  intros ls ls'. subst ls ls'. destruct Hl as [E|(cands & cb & ca & r & Ha)].
  - rewrite E. split; [auto|]. split; [auto|lia].
  - apply ask_llm_stats in Ha.
    destruct Ha as [E|[Hc [E|E]]]; rewrite E; unfold bump_fallbacks, bump_attempts,
      bump_actual_calls; cbn [attempts actual_calls fallbacks];
      (split; [lia|]); (split; [|lia]); intros Hn; [lia | contradiction | contradiction].
Qed.

Lemma align_loop_inv (OPENAI_AVAILABLE : bool) (set_iter : list str -> list str)
    (client : option Oracle) (speaker_vtt text_vtt : list VTTSegment)
    (segs : list VTTSegment) (i : nat) (st st' : AlignState) :
  align_loop OPENAI_AVAILABLE set_iter client speaker_vtt text_vtt i segs st = Some st' ->
  exists added, aligned st' = aligned st ++ added
    /\ map (fun a => (a_start a, a_end a, a_text a)) added
       = map (fun t => (start t, end_ t, text t)) segs
    /\ (stats st = match_counts (aligned st) -> stats st' = match_counts (aligned st'))
    /\ ((fallbacks (llm_stats st) + actual_calls (llm_stats st) <= attempts (llm_stats st))%nat ->
        (fallbacks (llm_stats st') + actual_calls (llm_stats st') <= attempts (llm_stats st'))%nat)
    /\ (client = None ->
        fallbacks (llm_stats st) = attempts (llm_stats st) /\ actual_calls (llm_stats st) = 0%nat ->
        fallbacks (llm_stats st') = attempts (llm_stats st')
        /\ actual_calls (llm_stats st') = 0%nat)
    /\ (attempts (llm_stats st') <= attempts (llm_stats st) + List.length segs)%nat.
Proof.
  revert i st. induction segs as [|t segs IH]; intros i st; simpl.
  - intros H; injection H as <-. exists []. rewrite app_nil_r.
    split; [reflexivity|]. split; [reflexivity|]. split; [auto|]. split; [auto|].
    split; [auto|]. lia.
  - destruct (align_step _ _ _ _ _ i t st) as [st1|] eqn:Hs; [|discriminate].
    intros H. destruct (IH (S i) st1 H) as (added & Ha & Hm & Hc & Hi & Hj & Hn).
    destruct (align_step_emits _ _ _ _ _ _ _ _ _ Hs) as (a & Ea & Es & Ee & Et & Ec & _).
    destruct (align_step_llm_stats _ _ _ _ _ _ _ _ _ Hs) as (Li & Lj & Ln).
    exists (a :: added). split; [rewrite Ha, Ea, <- app_assoc; reflexivity|].
    split; [simpl; rewrite Es, Ee, Et, Hm; reflexivity|].
    split; [intros E; apply Hc; rewrite Ec, Ea, E, match_counts_snoc; reflexivity|].
    split; [intros E; apply Hi, Li, E|].
    split; [intros Hn0 E; apply Hj, Lj; assumption|].
    lia.
Qed.

(** [align_with_llm] emits exactly one aligned segment per (expanded)
    text segment, in order, with its start, end and text unchanged. *)
Theorem align_with_llm_keeps_segments (OPENAI_AVAILABLE : bool)
    (set_iter : list str -> list str) (client : option Oracle)
    (speaker_vtt text_vtt : list VTTSegment) (al : list AlignedSegment) :
  align_with_llm OPENAI_AVAILABLE set_iter client speaker_vtt text_vtt = Some al ->
  map (fun a => (a_start a, a_end a, a_text a)) al
  = map (fun t => (start t, end_ t, text t)) (expanded_text_vtt speaker_vtt text_vtt).
Proof.
  unfold align_with_llm.
  destruct (align_loop _ _ _ _ _ 0 _ initial_state) as [st|] eqn:H; [|discriminate].
  intros E; injection E as <-.
  destruct (align_loop_inv _ _ _ _ _ _ _ _ _ H) as (added & Ha & Hm & _).
  rewrite Ha. exact Hm.
Qed.

Lemma align_with_llm_keeps_segments_witness :
  exists al,
    align_with_llm true (fun l => l) (Some fixed_oracle) alternating_speakers
      five_then_far_texts = Some al
    /\ map (fun a => (a_start a, a_end a, a_text a)) al
       = map (fun t => (start t, end_ t, text t))
           (expanded_text_vtt alternating_speakers five_then_far_texts).
Proof.
  set (al := match align_with_llm true (fun l => l) (Some fixed_oracle)
                     alternating_speakers five_then_far_texts with
             | Some r => r | None => [] end).
  assert (E : align_with_llm true (fun l => l) (Some fixed_oracle) alternating_speakers
                five_then_far_texts = Some al) by (vm_compute; reflexivity).
  exists al. split; [exact E|].
  exact (align_with_llm_keeps_segments true (fun l => l) (Some fixed_oracle)
           alternating_speakers five_then_far_texts al E).
Defined.

(** The statistics the alignment loop keeps are the counts of each match
    type among the aligned segments; fallbacks plus actual oracle calls
    never exceed the attempts, the attempts never exceed the segments,
    and without a client every attempt is a fallback. *)
Theorem align_with_llm_stats (OPENAI_AVAILABLE : bool)
    (set_iter : list str -> list str) (client : option Oracle)
    (speaker_vtt text_vtt : list VTTSegment) (st : AlignState) :
  align_loop OPENAI_AVAILABLE set_iter client speaker_vtt text_vtt 0
    (expanded_text_vtt speaker_vtt text_vtt) initial_state = Some st ->
  stats st = match_counts (aligned st)
  /\ (fallbacks (llm_stats st) + actual_calls (llm_stats st) <= attempts (llm_stats st))%nat
  /\ (attempts (llm_stats st) <= List.length (aligned st))%nat
  /\ (client = None ->
      fallbacks (llm_stats st) = attempts (llm_stats st) /\ actual_calls (llm_stats st) = 0%nat).
Proof.
  intros H. destruct (align_loop_inv _ _ _ _ _ _ _ _ _ H) as (added & Ha & Hm & Hc & Hi & Hj & Hn).
  cbn [aligned initial_state] in Ha. simpl in Ha.
  assert (Hl : List.length (aligned st) = List.length (expanded_text_vtt speaker_vtt text_vtt)).
  { rewrite Ha. rewrite <- (length_map (fun a => (a_start a, a_end a, a_text a))), Hm.
    apply length_map. }
  split; [apply Hc; reflexivity|].
  split; [apply Hi; simpl; lia|].
  split; [simpl in Hn; lia|].
  intros Hn0. apply Hj; [exact Hn0 | split; reflexivity].
Qed.

Lemma align_with_llm_stats_witness :
  exists st,
    align_loop true (fun l => l) (Some fixed_oracle) alternating_speakers five_then_far_texts 0
      (expanded_text_vtt alternating_speakers five_then_far_texts) initial_state = Some st
    /\ stats st = match_counts (aligned st)
    /\ (fallbacks (llm_stats st) + actual_calls (llm_stats st) <= attempts (llm_stats st))%nat
    /\ (attempts (llm_stats st) <= List.length (aligned st))%nat
    /\ (Some fixed_oracle = None ->
        fallbacks (llm_stats st) = attempts (llm_stats st)
        /\ actual_calls (llm_stats st) = 0%nat).
Proof.
  set (st := match align_loop true (fun l => l) (Some fixed_oracle) alternating_speakers
                     five_then_far_texts 0
                     (expanded_text_vtt alternating_speakers five_then_far_texts)
                     initial_state with
             | Some r => r | None => initial_state end).
  assert (E : align_loop true (fun l => l) (Some fixed_oracle) alternating_speakers
                five_then_far_texts 0
                (expanded_text_vtt alternating_speakers five_then_far_texts)
                initial_state = Some st) by (vm_compute; reflexivity).
  exists st. split; [exact E|].
  exact (align_with_llm_stats true (fun l => l) (Some fixed_oracle)
           alternating_speakers five_then_far_texts st E).
Defined.

(** The ratio division of [find_speaker_candidates] never divides by 0:
    some candidate implies a positive text duration. *)
Lemma find_speaker_candidates_some (text_seg : VTTSegment) (speaker_segs : list VTTSegment)
    (tolerance : Q) :
  exists res, find_speaker_candidates text_seg speaker_segs tolerance = Some res.
Proof.
  unfold find_speaker_candidates.
  set (raw := raw_candidates text_seg speaker_segs tolerance).
  pose proof (speaker_totals_speakers (sort_desc rc_overlap_duration raw)) as Hs.
  unfold recalculate_ratios.
  destruct (speaker_totals (sort_desc rc_overlap_duration raw)) as [|e0 T'] eqn:HT.
  - eexists; reflexivity.
  - assert (Hpos : 0 < end_ text_seg - start text_seg).
    { apply (raw_candidates_duration text_seg speaker_segs tolerance). fold raw.
      intros Hr. rewrite Hr in Hs. discriminate Hs. }
    destruct (Qeq_bool (end_ text_seg - start text_seg) 0) eqn:Hz.
    { apply Qeq_bool_iff in Hz. rewrite Hz in Hpos. destruct (Qlt_irrefl 0 Hpos). }
    eexists; reflexivity.
Qed.

Lemma resolve_candidates_some (speaker_vtt : list VTTSegment) (t : VTTSegment) :
  exists cands used, resolve_candidates speaker_vtt t = Some (cands, used).
Proof.
  unfold resolve_candidates.
  destruct (find_speaker_candidates_some t speaker_vtt 0) as [r0 E0]. rewrite E0.
  destruct r0 as [|c r0]; [|eauto].
  destruct (find_speaker_candidates_some t speaker_vtt 3) as [r3 E3]. rewrite E3. eauto.
Qed.

Lemma align_step_no_client (OPENAI_AVAILABLE : bool) (set_iter : list str -> list str)
    (speaker_vtt text_vtt : list VTTSegment) (i : nat) (t : VTTSegment) (st : AlignState) :
  exists st', align_step OPENAI_AVAILABLE set_iter None speaker_vtt text_vtt i t st = Some st'.
Proof.
  unfold align_step. cbv zeta.
  destruct (speaker t) as [|c0 sp]; [|eauto].
  destruct (resolve_candidates_some speaker_vtt t) as (cands & used & E). rewrite E.
  destruct cands as [|top rest]; [eauto|].
  destruct (_ && _); [eauto|].
  destruct (match rest with _ :: _ => _ | [] => false end); [|eauto].
  destruct (ask_llm_no_client OPENAI_AVAILABLE t (Real top) (map Real rest)
              (lastn 5 (aligned st)) (context_after text_vtt i)
              (bump_attempts (llm_stats st))) as (c & rsn & Ea).
  cbn [map]. rewrite Ea. cbn [l_confidence l_reasoning]. eauto.
Qed.

(** Without an oracle client, [align_with_llm] never raises. *)
Theorem align_with_llm_without_client_total (OPENAI_AVAILABLE : bool)
    (set_iter : list str -> list str) (speaker_vtt text_vtt : list VTTSegment) :
  exists al, align_with_llm OPENAI_AVAILABLE set_iter None speaker_vtt text_vtt = Some al.
Proof.
  unfold align_with_llm.
  assert (H : forall segs i st, exists st',
             align_loop OPENAI_AVAILABLE set_iter None speaker_vtt text_vtt i segs st = Some st').
  { induction segs as [|t segs IH]; intros i st; simpl; [eauto|].
    destruct (align_step_no_client OPENAI_AVAILABLE set_iter speaker_vtt text_vtt i t st)
      as [st1 E]. rewrite E. apply IH. }
  destruct (H (expanded_text_vtt speaker_vtt text_vtt) 0%nat initial_state) as [st E].
  rewrite E. eauto.
Qed.

(* ------------------------------------------------------------------ *)
(** ** [format_time] *)


Lemma Qfloor_unique (y : Q) (n : Z) :
  inject_Z n <= y -> y < inject_Z (n + 1) -> Qfloor y = n.
Proof.
  intros H1 H2. pose proof (Qfloor_le y) as F1. pose proof (Qlt_floor y) as F2.
  assert (A : (Qfloor y < n + 1)%Z) by (rewrite Zlt_Qlt; lra).
  assert (B : (n < Qfloor y + 1)%Z) by (rewrite Zlt_Qlt; lra).
  lia.
Qed.

Lemma Qfloor_div_Z (y : Q) (k : Z) :
  (0 < k)%Z -> Qfloor (y / inject_Z k) = (Qfloor y / k)%Z.
Proof.
  intros Hk. set (F := Qfloor y).
  pose proof (Qfloor_le y) as F1. pose proof (Qlt_floor y) as F2. fold F in F1, F2.
  assert (Hk' : 0 < inject_Z k) by (change 0 with (inject_Z 0); rewrite <- Zlt_Qlt; exact Hk).
  pose proof (Z.div_mod F k ltac:(lia)) as D. pose proof (Z.mod_pos_bound F k Hk) as M.
  apply Qfloor_unique.
  - apply Qle_shift_div_l; [exact Hk'|].
    rewrite <- inject_Z_mult. apply (Qle_trans _ (inject_Z F)); [|exact F1].
    rewrite <- Zle_Qle. lia.
  - apply Qlt_shift_div_r; [exact Hk'|].
    rewrite <- inject_Z_mult. apply (Qlt_le_trans _ (inject_Z (F + 1))); [exact F2|].
    rewrite <- Zle_Qle. nia.
Qed.

Lemma Qfloor_sub_Z (y : Q) (n : Z) : Qfloor (y - inject_Z n) = (Qfloor y - n)%Z.
Proof.
  pose proof (Qfloor_le y) as F1. pose proof (Qlt_floor y) as F2.
  apply Qfloor_unique.
  - unfold Z.sub. rewrite inject_Z_plus, inject_Z_opp. lra.
  - replace (Qfloor y - n + 1)%Z with (Qfloor y + 1 + - n)%Z by lia.
    rewrite (inject_Z_plus (Qfloor y + 1)), inject_Z_opp. lra.
Qed.

Lemma py_int_of_float_nonneg (x : Q) : 0 <= x -> py_int_of_float x = Qfloor x.
Proof.
  intros H. unfold py_int_of_float. apply Qle_bool_iff in H. rewrite H. reflexivity.
Qed.

Lemma Qfloor_nonneg (x : Q) : 0 <= x -> (0 <= Qfloor x)%Z.
Proof.
  intros H. change 0%Z with (Qfloor 0). apply Qfloor_resp_le, H.
Qed.

Lemma py_mod_floor (x : Q) (k : Z) :
  (0 < k)%Z ->
  Qfloor (py_mod x (inject_Z k)) = (Qfloor x mod k)%Z
  /\ 0 <= py_mod x (inject_Z k).
Proof.
  intros Hk. unfold py_mod, py_floordiv. rewrite Qfloor_div_Z by exact Hk.
  rewrite <- inject_Z_mult, Qfloor_sub_Z.
  rewrite Z.mod_eq by lia. split; [reflexivity|].
  pose proof (Qfloor_le (x - inject_Z (k * (Qfloor x / k)))) as F.
  rewrite Qfloor_sub_Z in F.
  assert (P : (0 <= Qfloor x - k * (Qfloor x / k))%Z)
    by (rewrite <- Z.mod_eq by lia; apply Z.mod_pos_bound; exact Hk).
  rewrite Zle_Qle in P. change (inject_Z 0) with 0 in P. lra.
Qed.

(** [format_time] on a non-negative time: the fields of [floor(x)]. *)
Lemma format_time_fields (x : Q) :
  0 <= x ->
  let F := Qfloor x in
  format_time x
  = fmt02d (F / 3600) ++ [colon] ++ fmt02d ((F mod 3600) / 60) ++ [colon] ++ fmt02d (F mod 60).
Proof.
  intros Hx F. unfold format_time.
  assert (E1 : py_int_of_float (py_floordiv x 3600) = (F / 3600)%Z).
  { unfold py_floordiv. rewrite py_int_of_float_nonneg.
    - rewrite Qfloor_Z. change 3600 with (inject_Z 3600). apply Qfloor_div_Z. lia.
    - change 0 with (inject_Z 0). rewrite <- Zle_Qle.
      change 3600 with (inject_Z 3600). rewrite Qfloor_div_Z by lia.
      apply Z.div_pos; [apply Qfloor_nonneg, Hx | lia]. }
  destruct (py_mod_floor x 3600 ltac:(lia)) as [M1 M2].
  destruct (py_mod_floor x 60 ltac:(lia)) as [S1 S2].
  change (inject_Z 3600) with 3600 in M1, M2. change (inject_Z 60) with 60 in S1, S2.
  assert (E2 : py_int_of_float (py_floordiv (py_mod x 3600) 60) = ((F mod 3600) / 60)%Z).
  { unfold py_floordiv. change 60 with (inject_Z 60).
    rewrite Qfloor_div_Z, M1 by lia. rewrite py_int_of_float_nonneg, Qfloor_Z; [reflexivity|].
    change 0 with (inject_Z 0). rewrite <- Zle_Qle.
    apply Z.div_pos; [apply Z.mod_pos_bound | ]; lia. }
  assert (E3 : py_int_of_float (py_mod x 60) = (F mod 60)%Z)
    by (rewrite py_int_of_float_nonneg by exact S2; exact S1).
  rewrite E1, E2, E3. reflexivity.
Qed.

Lemma digits_val_app (a : Z) (u v : str) : digits_val a (u ++ v) = digits_val (digits_val a u) v.
Proof. revert a; induction u as [|c u IH]; intros a; simpl; [reflexivity | apply IH]. Qed.

Lemma digit_char_spec (d : Z) :
  (0 <= d < 10)%Z ->
  is_digit (digit_char d) = true /\ Z.of_nat (nat_of_ascii (digit_char d) - 48) = d.
Proof.
  intros Hd. unfold digit_char, is_digit.
  rewrite nat_ascii_embedding by lia. split.
  - apply andb_true_iff; split; apply Nat.leb_le; lia.
  - rewrite Nat.add_comm, Nat.add_sub. apply Z2Nat.id. lia.
Qed.

Lemma z_digits_aux_spec (fuel : nat) (n : Z) (acc : str) :
  (0 <= n)%Z -> (Z.to_nat n < fuel)%nat ->
  exists ds, z_digits_aux fuel n acc = ds ++ acc /\ ds <> []
    /\ forallb is_digit ds = true
    /\ forall a, digits_val a ds = (a * 10 ^ Z.of_nat (List.length ds) + n)%Z.
Proof.
  revert n acc; induction fuel as [|f IH]; intros n acc Hn Hf; [lia|].
  cbn [z_digits_aux]. pose proof (Z.mod_pos_bound n 10 ltac:(lia)) as Hm.
  destruct (digit_char_spec (n mod 10) Hm) as [Dc Vc].
  set (c := digit_char (n mod 10)) in *. clearbody c.
  destruct (n <? 10)%Z eqn:Hlt.
  - apply Z.ltb_lt in Hlt. exists [c]. simpl.
    split; [reflexivity|]. split; [discriminate|]. rewrite Dc. split; [reflexivity|].
    intros a. rewrite Vc, Z.mod_small by lia. lia.
  - apply Z.ltb_ge in Hlt.
    assert (Hq : (0 <= n / 10)%Z) by (apply Z.div_pos; lia).
    assert (Hq' : (Z.to_nat (n / 10) < f)%nat).
    { assert (n / 10 < n)%Z by (apply Z.div_lt; lia).
      assert (Z.to_nat (n / 10) < Z.to_nat n)%nat by (apply Z2Nat.inj_lt; lia). lia. }
    destruct (IH (n / 10)%Z (c :: acc) Hq Hq') as (ds & E & Ne & D & V).
    exists (ds ++ [c]).
    rewrite E, <- app_assoc. split; [reflexivity|].
    split; [destruct ds; [contradiction | discriminate]|].
    rewrite forallb_app, D. simpl. rewrite Dc. split; [reflexivity|].
    intros a. rewrite digits_val_app, V. simpl. rewrite Vc, length_app. simpl.
    rewrite Nat2Z.inj_add, Z.pow_add_r by lia.
    pose proof (Z.div_mod n 10 ltac:(lia)). simpl (10 ^ Z.of_nat 1)%Z. nia.
Qed.

Lemma digits_val_zeros (k : nat) : digits_val 0 (repeat "0"%char k) = 0%Z.
Proof. induction k as [|k IH]; simpl; [reflexivity | exact IH]. Qed.

Lemma fmt02d_nonneg (n : Z) :
  (0 <= n)%Z ->
  fmt02d n <> [] /\ forallb is_digit (fmt02d n) = true /\ digits_val 0 (fmt02d n) = n.
Proof.
  intros Hn. unfold fmt02d, z_digits.
  replace (n <? 0)%Z with false by (symmetry; apply Z.ltb_ge; exact Hn).
  rewrite Z.abs_eq by exact Hn.
  destruct (z_digits_aux_spec (S (Z.to_nat n)) n [] Hn ltac:(lia)) as (ds & E & Ne & D & V).
  rewrite E, app_nil_r. simpl.
  split; [destruct (repeat _ _), ds; simpl; (contradiction || discriminate)|].
  split.
  - rewrite forallb_app, D, andb_true_r. apply forallb_forall.
    intros c Hc. apply repeat_spec in Hc. subst c. reflexivity.
  - rewrite digits_val_app, digits_val_zeros, V. lia.
Qed.

Lemma run_len_all (u : str) : forallb is_digit u = true -> run_len is_digit u = List.length u.
Proof.
  induction u as [|c u IH]; simpl; [reflexivity|].
  intros H. apply andb_true_iff in H as [-> H]. rewrite IH by exact H. reflexivity.
Qed.

Lemma py_float_int_digits (u : str) :
  u <> [] -> forallb is_digit u = true -> py_float u = Some (inject_Z (digits_val 0 u)).
Proof.
  intros Ne D. unfold py_float. rewrite strip_id by (apply digits_not_space, D).
  rewrite run_len_all by exact D. rewrite firstn_all, skipn_all.
  destruct u; [contradiction|]. unfold isdigit. rewrite D. reflexivity.
Qed.

(** For a non-negative time [x], [format_time] writes the hours, the
    minutes and the seconds of [floor(x)], and [parse_timestamp] reads
    the result back as [floor(x)] seconds. *)
Theorem format_time_round_trip (x : Q) :
  0 <= x ->
  let F := Qfloor x in
  format_time x
  = fmt02d (F / 3600) ++ [colon] ++ fmt02d ((F mod 3600) / 60) ++ [colon] ++ fmt02d (F mod 60)
  /\ exists q, parse_timestamp (format_time x) = Some q /\ q == inject_Z F.
Proof.
  intros Hx F. pose proof (format_time_fields x Hx) as E. fold F in E.
  split; [exact E|]. rewrite E.
  assert (HF : (0 <= F)%Z) by (apply Qfloor_nonneg, Hx).
  destruct (fmt02d_nonneg (F / 3600)) as (Nh & Dh & Vh); [apply Z.div_pos; lia|].
  destruct (fmt02d_nonneg ((F mod 3600) / 60)) as (Nm & Dm & Vm);
    [apply Z.div_pos; [apply Z.mod_pos_bound|]; lia|].
  destruct (fmt02d_nonneg (F mod 60)) as (Ns & Ds & Vs); [apply Z.mod_pos_bound; lia|].
  eexists. split.
  - apply parse_timestamp_three.
    + apply digits_no_colon, Dh.
    + apply digits_no_colon, Dm.
    + apply digits_no_colon, Ds.
    + rewrite py_int_digits by assumption. rewrite Vh. reflexivity.
    + rewrite py_int_digits by assumption. rewrite Vm. reflexivity.
    + rewrite py_float_int_digits by assumption. rewrite Vs. reflexivity.
  - assert (Z3 : (F / 3600 * 3600 + F mod 3600 / 60 * 60 + F mod 60 = F)%Z).
    { pose proof (Z.div_mod F 3600 ltac:(lia)) as D1.
      pose proof (Z.div_mod (F mod 3600) 60 ltac:(lia)) as D2.
      rewrite (Z.mod_mod_divide F 3600 60) in D2 by (exists 60%Z; reflexivity). lia. }
    rewrite <- inject_Z_plus, Z3. reflexivity.
Qed.

Lemma format_time_round_trip_witness :
  format_time (37255 # 10)
  = fmt02d (Qfloor (37255 # 10) / 3600) ++ [colon]
    ++ fmt02d ((Qfloor (37255 # 10) mod 3600) / 60) ++ [colon]
    ++ fmt02d (Qfloor (37255 # 10) mod 60)
  /\ exists q, parse_timestamp (format_time (37255 # 10)) = Some q
              /\ q == inject_Z (Qfloor (37255 # 10)).
Proof. apply (format_time_round_trip (37255 # 10)). lra. Defined.

(* ------------------------------------------------------------------ *)
(** ** Markdown grouping *)

Lemma speakers_change_snoc (gs : list Group) (g g' : Group) :
  speakers_change (gs ++ [g]) -> g_speaker g <> g_speaker g' ->
  speakers_change (gs ++ [g; g']).
Proof.
  intros P Hne l1 g1 g2 l2 E.
  destruct (rev l2) as [|x r] eqn:Hr.
  - assert (l2 = []) as -> by (rewrite <- (rev_involutive l2), Hr; reflexivity).
    replace (gs ++ [g; g']) with ((gs ++ [g]) ++ [g']) in E by (rewrite <- app_assoc; reflexivity).
    replace (l1 ++ [g1; g2]) with ((l1 ++ [g1]) ++ [g2]) in E by (rewrite <- app_assoc; reflexivity).
    apply app_inj_tail in E as [E ->]. apply app_inj_tail in E as [_ ->]. exact Hne.
  - assert (l2 = rev r ++ [x]) as -> by (rewrite <- (rev_involutive l2), Hr; reflexivity).
    replace (gs ++ [g; g']) with ((gs ++ [g]) ++ [g']) in E by (rewrite <- app_assoc; reflexivity).
    replace (l1 ++ g1 :: g2 :: rev r ++ [x]) with ((l1 ++ g1 :: g2 :: rev r) ++ [x]) in E
      by (rewrite <- app_assoc; reflexivity).
    apply app_inj_tail in E as [E _]. exact (P l1 g1 g2 (rev r) E).
Qed.

Lemma describes_single (seg : AlignedSegment) : describes [seg] (new_group seg).
Proof.
  unfold describes, new_group; cbn [g_speaker g_start g_end g_texts g_min_confidence].
  split; [discriminate|]. split; [constructor; [reflexivity | constructor]|].
  split; [exists seg, []; split; reflexivity|].
  split; [exists [], seg; split; reflexivity|].
  split; [reflexivity|]. split; [left; reflexivity|].
  constructor; [apply Qle_refl | constructor].
Qed.

Lemma describes_snoc (run : list AlignedSegment) (g : Group) (seg : AlignedSegment) :
  describes run g -> str_eqb (g_speaker g) (a_speaker seg) = true ->
  describes (run ++ [seg])
    (mkGroup (g_speaker g) (g_start g) (a_end seg) (g_texts g ++ [a_text seg])
       (py_min2 (g_min_confidence g) (confidence seg))).
Proof.
  intros (Ne & Sp & (a0 & r0 & E0 & St) & _ & Tx & Mi & Ml) Heq.
  apply str_eqb_eq in Heq.
  unfold describes; cbn [g_speaker g_start g_end g_texts g_min_confidence].
  split; [destruct run; [contradiction | discriminate]|].
  split; [apply Forall_app; split; [exact Sp | constructor; [symmetry; exact Heq | constructor]]|].
  split; [exists a0, (r0 ++ [seg]); rewrite E0; split; [reflexivity | exact St]|].
  split; [exists run, seg; split; reflexivity|].
  split; [rewrite Tx, map_app; reflexivity|].
  unfold py_min2. destruct (Qltb (confidence seg) (g_min_confidence g)) eqn:Hlt.
  - apply Qltb_iff in Hlt. split.
    + rewrite map_app, in_app_iff. right; left; reflexivity.
    + apply Forall_app. split; [|constructor; [apply Qle_refl | constructor]].
      revert Ml. apply Forall_impl. intros a Ha. lra.
  - unfold Qltb in Hlt. apply negb_false_iff, Qle_bool_iff in Hlt. split.
    + rewrite map_app, in_app_iff. left; exact Mi.
    + apply Forall_app. split; [exact Ml | constructor; [exact Hlt | constructor]].
Qed.

Lemma speakers_change_last (gs : list Group) (g g' : Group) :
  speakers_change (gs ++ [g]) -> g_speaker g' = g_speaker g ->
  speakers_change (gs ++ [g']).
Proof.
  intros P Hs l1 g1 g2 l2 E.
  destruct (rev l2) as [|x r] eqn:Hr.
  - assert (l2 = []) as -> by (rewrite <- (rev_involutive l2), Hr; reflexivity).
    replace (l1 ++ [g1; g2]) with ((l1 ++ [g1]) ++ [g2]) in E by (rewrite <- app_assoc; reflexivity).
    apply app_inj_tail in E as [E ->]. rewrite Hs.
    apply (P l1 g1 g []). rewrite E, <- app_assoc. reflexivity.
  - assert (l2 = rev r ++ [x]) as -> by (rewrite <- (rev_involutive l2), Hr; reflexivity).
    replace (l1 ++ g1 :: g2 :: rev r ++ [x]) with ((l1 ++ g1 :: g2 :: rev r) ++ [x]) in E
      by (rewrite <- app_assoc; reflexivity).
    apply app_inj_tail in E as [E ->].
    apply (P l1 g1 g2 (rev r ++ [g])). rewrite E, <- app_assoc. reflexivity.
Qed.

Lemma group_step_inv (prefix : list AlignedSegment) (acc : list Group * option Group)
    (seg : AlignedSegment) :
  group_inv prefix acc -> group_inv (prefix ++ [seg]) (group_step acc seg).
Proof.
  destruct acc as [grouped cur]. intros [H0 H1]. unfold group_step.
  destruct cur as [g|].
  - destruct (H1 g eq_refl) as (runs & run & Ep & Fr & Dr & Sc).
    destruct (str_eqb (g_speaker g) (a_speaker seg)) eqn:Heq.
    + split; [discriminate|]. intros g' Hg'. injection Hg' as <-.
      exists runs, (run ++ [seg]).
      split; [rewrite Ep, <- app_assoc; reflexivity|].
      split; [exact Fr|]. split; [apply describes_snoc; assumption|].
      apply (speakers_change_last _ g); [exact Sc | reflexivity].
    + split; [discriminate|]. intros g' Hg'. injection Hg' as <-.
      exists (runs ++ [run]), [seg].
      split; [rewrite Ep, concat_app; simpl; rewrite app_nil_r; reflexivity|].
      split; [apply Forall2_app; [exact Fr | constructor; [exact Dr | constructor]]|].
      split; [apply describes_single|].
      rewrite <- app_assoc. apply speakers_change_snoc; [exact Sc|].
      apply str_eqb_neq in Heq. exact Heq.
  - destruct (H0 eq_refl) as [-> ->].
    split; [discriminate|]. intros g' Hg'. injection Hg' as <-.
    exists [], [seg]. split; [reflexivity|]. split; [constructor|].
    split; [apply describes_single|].
    intros l1 g1 g2 l2 E. destruct l1 as [|? [|? ?]]; discriminate E.
Qed.

Lemma group_fold_inv (segs prefix : list AlignedSegment) (acc : list Group * option Group) :
  group_inv prefix acc -> group_inv (prefix ++ segs) (fold_left group_step segs acc).
Proof.
  revert prefix acc. induction segs as [|seg segs IH]; intros prefix acc H; simpl.
  - rewrite app_nil_r. exact H.
  - replace (prefix ++ seg :: segs) with ((prefix ++ [seg]) ++ segs)
      by (rewrite <- app_assoc; reflexivity).
    apply IH, group_step_inv, H.
Qed.

(** [generate_markdown] groups the segments into maximal runs of one
    speaker: the segments are the concatenation of the runs, in order;
    each group has its run's speaker, the start of its first segment,
    the end of its last one, all its texts in order, and the smallest
    confidence of the run; two consecutive groups have different
    speakers. *)
Theorem group_segments_runs (segments : list AlignedSegment) :
  exists runs, segments = concat runs
    /\ Forall2 describes runs (group_segments segments)
    /\ speakers_change (group_segments segments).
Proof.
  pose proof (group_fold_inv segments [] ([], None)) as H.
  assert (H0 : group_inv [] ([], None)) by (split; [auto | discriminate]).
  specialize (H H0). simpl in H. unfold group_segments.
  destruct (fold_left group_step segments ([], None)) as [grouped [g|]].
  - destruct H as [_ H]. destruct (H g eq_refl) as (runs & run & Ep & Fr & Dr & Sc).
    exists (runs ++ [run]). split; [rewrite concat_app; simpl; rewrite app_nil_r; exact Ep|].
    split; [apply Forall2_app; [exact Fr | constructor; [exact Dr | constructor]]|].
    exact Sc.
  - destruct H as [H _]. destruct (H eq_refl) as [-> ->].
    exists []. split; [reflexivity|]. split; [constructor|].
    intros l1 g1 g2 l2 E. destruct l1; discriminate E.
Qed.

(* ------------------------------------------------------------------ *)
(** ** Parsers *)

Lemma finditer_aux_In {A} (p : Parser A) (fuel : nat) (s : str) (off i j : nat) (a : A) :
  In (i, j, a) (finditer_aux p fuel s off) -> exists s' r, In (a, r) (p s').
Proof.
  revert s off. induction fuel as [|fuel IH]; intros s off; simpl; [intros []|].
  destruct (search_from p s 0) as [[[i0 a0] rest]|] eqn:E; [|intros []].
  intros [H|H].
  - injection H as _ _ <-. apply search_from_In in E. destruct E as [s' E]. eauto.
  - eapply IH, H.
Qed.

Lemma In_p_tb_marker (s : str) (n : str) (st en : str * str * option str) (r : str) :
  In ((n, st, en), r) (p_tb_marker s) ->
  (exists s1 r1, In (st, r1) (p_tb_time s1)) /\ (exists s2 r2, In (en, r2) (p_tb_time s2)).
Proof.
  unfold p_tb_marker. intros H.
  do 6 (apply In_p_bind in H as [? [? [_ H]]]).
  apply In_p_bind in H as [st' [r7 [H7 H]]].
  do 3 (apply In_p_bind in H as [? [? [_ H]]]).
  apply In_p_bind in H as [en' [r11 [H11 H]]].
  apply In_p_bind in H as [? [? [_ H]]].
  apply In_p_ret in H. injection H as <- <- <- _.
  split; eauto.
Qed.

Lemma digits_val_nonneg (acc : Z) (u : str) : (0 <= acc)%Z -> (0 <= digits_val acc u)%Z.
Proof.
  revert acc; induction u as [|c u IH]; intros acc H; simpl; [exact H|].
  apply IH. lia.
Qed.

Lemma tb_seconds_of_time (s a b : str) (c : option str) (r : str) :
  In ((a, b, c), r) (p_tb_time s) -> exists z, tb_seconds a b c = Some z /\ (0 <= z)%Z.
Proof.
  intros H. apply In_p_tb_time in H as [[Na Da] [[Lb Db] Hc]].
  assert (Nb : b <> []) by (intros ->; discriminate Lb).
  pose proof (digits_val_nonneg 0 a ltac:(lia)). pose proof (digits_val_nonneg 0 b ltac:(lia)).
  destruct Hc as [->|[cc [-> [Lc Dc]]]].
  - unfold tb_seconds. simpl. rewrite !py_int_digits by assumption. eexists; split; [reflexivity|lia].
  - destruct cc as [|x cc]; [discriminate Lc|].
    pose proof (digits_val_nonneg 0 (x :: cc) ltac:(lia)).
    unfold tb_seconds. simpl. rewrite !py_int_digits by (assumption || discriminate).
    eexists; split; [reflexivity|lia].
Qed.

Lemma turboscribe_segments (content : str) :
  exists segs, parse_turboscribe_format content = Some segs
    /\ forall s, In s segs ->
         speaker s = [] /\ text s <> []
         /\ exists zs ze, (0 <= zs)%Z /\ (0 <= ze)%Z
                          /\ start s = inject_Z zs /\ end_ s = inject_Z ze.
Proof.
  unfold parse_turboscribe_format. cbv zeta.
  assert (Hm : forall x, In x (finditer p_tb_marker content) ->
                 exists s' r, In (snd x, r) (p_tb_marker s')).
  { intros [[i j] a] Hx. exact (finditer_aux_In _ _ _ _ _ _ _ Hx). }
  revert Hm. generalize (finditer p_tb_marker content) as ms.
  induction ms as [|x ms IH]; intros Hm.
  - exists []. split; [reflexivity | intros s []].
  - destruct x as [[i j] [[n [[a1 b1] c1]] [[a2 b2] c2]]].
    destruct (Hm _ (or_introl eq_refl)) as (s' & r & Hx). cbn [snd] in Hx.
    apply In_p_tb_marker in Hx as [[s1 [r1 H1]] [s2 [r2 H2]]].
    destruct (tb_seconds_of_time _ _ _ _ _ H1) as [zs [Es Ps]].
    destruct (tb_seconds_of_time _ _ _ _ _ H2) as [ze [Ee Pe]].
    destruct (IH (fun y Hy => Hm y (or_intror Hy))) as (segs & Eg & Hs).
    cbv beta iota fix. rewrite Es, Ee.
    match goal with
    | |- context[match ?g with Some _ => _ | None => _ end] =>
        match g with context[ms] => rewrite Eg end
    end.
    match goal with
    | |- exists _, Some (match ?tx with [] => _ | _ :: _ => _ end) = _ /\ _ =>
        destruct tx as [|c t] eqn:Et
    end.
    + exists segs. split; [reflexivity | exact Hs].
    + eexists. split; [reflexivity|]. intros s [<-|Hin]; [|apply Hs, Hin].
      cbn [speaker text start end_]. split; [reflexivity|]. split; [discriminate|].
      exists zs, ze. auto.
Qed.

(** [parse_turboscribe_format] never raises; every segment it returns has
    an empty speaker, a non-empty text, and non-negative whole-second
    start and end times. *)
Theorem parse_turboscribe_format_segments (content : str) :
  exists segs, parse_turboscribe_format content = Some segs
    /\ forall s, In s segs ->
         speaker s = [] /\ text s <> []
         /\ exists zs ze, (0 <= zs)%Z /\ (0 <= ze)%Z
                          /\ start s = inject_Z zs /\ end_ s = inject_Z ze.
Proof. exact (turboscribe_segments content). Qed.

Lemma vtt_time_value (s g r : str) :
  In (g, r) (p_group p_vtt_time s) -> exists q, parse_timestamp g = Some q /\ 0 <= q.
Proof.
  intros H. apply In_p_group_vtt_time in H as (hh & mm & ss & ms & Dh & Dm & Ds & Dms & ->).
  destruct (parse_timestamp_vtt_shape hh mm ss ms Dh Dm Ds Dms) as (zh & zm & qs & Ih & Im & Fs & E).
  exists (inject_Z (zh * 3600 + zm * 60) + qs). split; [exact E|].
  destruct Dh as [Lh Dh], Dm as [Lm Dm], Ds as [Ls Ds], Dms as [Lms Dms].
  rewrite py_int_digits in Ih, Im by (assumption || (intros ->; discriminate)).
  injection Ih as <-. injection Im as <-.
  rewrite py_float_digits in Fs by (assumption || (intros ->; discriminate)).
  injection Fs as <-.
  pose proof (digits_val_nonneg 0 hh ltac:(lia)). pose proof (digits_val_nonneg 0 mm ltac:(lia)).
  pose proof (digits_val_nonneg 0 ss ltac:(lia)). pose proof (digits_val_nonneg 0 ms ltac:(lia)).
  assert (A : 0 <= inject_Z (digits_val 0 hh * 3600 + digits_val 0 mm * 60))
    by (change 0 with (inject_Z 0); rewrite <- Zle_Qle; lia).
  assert (B : 0 <= inject_Z (digits_val 0 ss))
    by (change 0 with (inject_Z 0); rewrite <- Zle_Qle; lia).
  assert (P : 0 < inject_Z (10 ^ Z.of_nat (List.length ms)))
    by (change 0 with (inject_Z 0); rewrite <- Zlt_Qlt; apply Z.pow_pos_nonneg; lia).
  assert (C : 0 <= inject_Z (digits_val 0 ms) / inject_Z (10 ^ Z.of_nat (List.length ms))).
  { apply Qle_shift_div_l; [exact P|]. rewrite Qmult_0_l.
    change 0 with (inject_Z 0). rewrite <- Zle_Qle. lia. }
  lra.
Qed.

Lemma parse_cue_times (block : str) (st en : Q) (tl : list str) :
  parse_cue block = Some (st, en, tl) -> 0 <= st /\ 0 <= en.
Proof.
  unfold parse_cue.
  destruct (scan_lines _) as [[ts|] [|l ls]]; try discriminate.
  destruct (re_search p_cue_timing ts) as [[[i [g1 g2]] rest]|] eqn:E; [|discriminate].
  apply search_from_In in E as [s' E]. apply In_p_cue_timing in E as [[s1 [r1 H1]] [s2 H2]].
  destruct (vtt_time_value _ _ _ H1) as [q1 [E1 P1]].
  destruct (vtt_time_value _ _ _ H2) as [q2 [E2 P2]].
  rewrite E1, E2. intros H; injection H as <- <- _. auto.
Qed.

(** [parse_vtt_with_speakers]: every segment has an empty text and
    non-negative start and end times. *)
Theorem parse_vtt_with_speakers_times (content : str) :
  Forall (fun s => text s = [] /\ 0 <= start s /\ 0 <= end_ s)
    (parse_vtt_with_speakers content).
Proof.
  apply Forall_forall. intros s Hs. unfold parse_vtt_with_speakers in Hs.
  apply in_flat_map in Hs as [block [_ Hs]].
  destruct (parse_cue block) as [[[st en] tl]|] eqn:E; [|destruct Hs].
  destruct Hs as [<-|[]]. cbn [text start end_].
  split; [reflexivity|]. exact (parse_cue_times _ _ _ _ E).
Qed.

(** [parse_vtt_without_speakers] never raises; every segment it returns
    has an empty speaker and non-negative start and end times. *)
Theorem parse_vtt_without_speakers_segments (filepath content : str) :
  exists segs, parse_vtt_without_speakers filepath content = Some segs
    /\ forall s, In s segs -> speaker s = [] /\ 0 <= start s /\ 0 <= end_ s.
Proof.
  unfold parse_vtt_without_speakers.
  destruct (detect_vtt_format filepath content).
  - destruct (turboscribe_segments content) as (segs & E & H).
    exists segs. split; [exact E|]. intros s Hs.
    destruct (H s Hs) as (Sp & _ & zs & ze & Ps & Pe & Es & Ee).
    rewrite Es, Ee. split; [exact Sp|].
    split; change 0 with (inject_Z 0); rewrite <- Zle_Qle; assumption.
  - eexists. split; [reflexivity|]. intros s Hs.
    apply in_flat_map in Hs as [block [_ Hs]].
    destruct (parse_cue block) as [[[st en] tl]|] eqn:E; [|destruct Hs].
    destruct Hs as [<-|[]]. cbn [speaker start end_].
    split; [reflexivity|]. exact (parse_cue_times _ _ _ _ E).
Qed.

(* ------------------------------------------------------------------ *)
(** ** Segment splitter *)

Lemma best_speaker_max (overlapping : list VTTSegment) (ss se : Q) (b : str) :
  best_speaker overlapping ss se = Some b ->
  exists x, In x overlapping /\ speaker x = b
    /\ 0 < calculate_overlap (start x) (end_ x) ss se
    /\ forall y, In y overlapping ->
         calculate_overlap (start y) (end_ y) ss se <= calculate_overlap (start x) (end_ x) ss se.
Proof.
  unfold best_speaker.
  set (ov := fun s => calculate_overlap (start s) (end_ s) ss se).
  set (f := fun (acc : Q * option str) spk_seg =>
              let '(max_overlap, best) := acc in
              let o := calculate_overlap (start spk_seg) (end_ spk_seg) ss se in
              if Qltb max_overlap o then (o, Some (speaker spk_seg)) else acc).
  enough (Hf : forall l done acc,
            (snd acc = None /\ fst acc == 0 /\ (forall y, In y done -> ov y <= 0))
            \/ (exists x, In x done /\ snd acc = Some (speaker x) /\ fst acc == ov x
                /\ 0 < ov x /\ forall y, In y done -> ov y <= ov x) ->
            let r := fold_left f l acc in
            (snd r = None /\ (forall y, In y (done ++ l) -> ov y <= 0))
            \/ (exists x, In x (done ++ l) /\ snd r = Some (speaker x)
                /\ 0 < ov x /\ forall y, In y (done ++ l) -> ov y <= ov x)).
  { intros E. destruct (Hf overlapping [] (0, None)) as [[Hn _]|(x & Hx & Hs & Hp & Hm)].
    - left. split; [reflexivity|split; [reflexivity | intros y []]].
    - simpl in Hn. congruence.
    - simpl in Hs. assert (Hb : speaker x = b) by congruence.
      exists x. split; [exact Hx|]. split; [exact Hb|]. split; [exact Hp | exact Hm]. }
  induction l as [|z l IH]; intros done [m best] H; simpl.
  - rewrite app_nil_r. destruct H as [(Hn & _ & Hy)|(x & Hx & Hs & Hm & Hp & Hy)];
      [left; auto | right; exists x; auto].
  - replace (done ++ z :: l) with ((done ++ [z]) ++ l) by (rewrite <- app_assoc; reflexivity).
    apply IH. cbn [fst snd] in H. change (calculate_overlap (start z) (end_ z) ss se) with (ov z).
    destruct (Qltb m (ov z)) eqn:Hlt.
    + apply Qltb_iff in Hlt. right. exists z. cbn [fst snd].
      split; [apply in_app_iff; right; left; reflexivity|].
      split; [reflexivity|]. split; [apply Qeq_refl|].
      destruct H as [(Hn & Hm & Hy)|(x & Hx & Hs & Hm & Hp & Hy)].
      * split; [rewrite Hm in Hlt; exact Hlt|].
        intros y Hy'. apply in_app_iff in Hy' as [Hy'|[<-|[]]]; [|apply Qle_refl].
        pose proof (Hy y Hy'). rewrite Hm in Hlt. lra.
      * split; [lra|].
        intros y Hy'. apply in_app_iff in Hy' as [Hy'|[<-|[]]]; [|apply Qle_refl].
        pose proof (Hy y Hy'). lra.
    + unfold Qltb in Hlt. apply negb_false_iff, Qle_bool_iff in Hlt. cbn [fst snd].
      destruct H as [(Hn & Hm & Hy)|(x & Hx & Hs & Hm & Hp & Hy)].
      * left. split; [exact Hn|]. split; [exact Hm|].
        intros y Hy'. apply in_app_iff in Hy' as [Hy'|[<-|[]]]; [apply Hy, Hy'|lra].
      * right. exists x. split; [apply in_app_iff; left; exact Hx|].
        split; [exact Hs|]. split; [exact Hm|]. split; [exact Hp|].
        intros y Hy'. apply in_app_iff in Hy' as [Hy'|[<-|[]]]; [apply Hy, Hy'|lra].
Qed.

Lemma sentence_segments_In (ovl : list VTTSegment) (d cur : Q) (sents : list str)
    (p : VTTSegment) :
  In p (sentence_segments ovl d cur sents) ->
  In ((start p, end_ p), text p)
     (combine (sentence_intervals cur d (List.length sents)) (map strip sents))
  /\ best_speaker ovl (start p) (end_ p) = Some (speaker p) /\ speaker p <> [].
Proof.
  revert cur; induction sents as [|s ss IH]; intros cur H; [destruct H|].
  simpl in H. destruct (best_speaker ovl cur (cur + d)) as [[|c cs]|] eqn:Hb.
  - destruct (IH _ H) as (H1 & H2 & H3). split; [right; exact H1|]. auto.
  - destruct H as [<-|H].
    + cbn [start end_ text speaker]. split; [left; reflexivity|].
      split; [exact Hb | discriminate].
    + destruct (IH _ H) as (H1 & H2 & H3). split; [right; exact H1|]. auto.
  - destruct (IH _ H) as (H1 & H2 & H3). split; [right; exact H1|]. auto.
Qed.

Theorem split_turboscribe_segment_pieces (text_seg : VTTSegment)
    (speaker_segs : list VTTSegment) :
  let res := split_turboscribe_segment_by_speakers text_seg speaker_segs in
  let sents := split_sentences (text text_seg) in
  let n := List.length sents in
  let d := (end_ text_seg - start text_seg) / inject_Z (Z.of_nat n) in
  res = [text_seg] \/
  forall p, In p res ->
    In ((start p, end_ p), text p)
       (combine (sentence_intervals (start text_seg) d n) (map strip sents))
    /\ speaker p <> []
    /\ exists spk, In spk speaker_segs /\ speaker spk = speaker p
       /\ 0 < calculate_overlap (start spk) (end_ spk) (start text_seg) (end_ text_seg)
       /\ 0 < calculate_overlap (start spk) (end_ spk) (start p) (end_ p)
       /\ forall spk', In spk' speaker_segs ->
            0 < calculate_overlap (start spk') (end_ spk') (start text_seg) (end_ text_seg) ->
            calculate_overlap (start spk') (end_ spk') (start p) (end_ p)
            <= calculate_overlap (start spk) (end_ spk) (start p) (end_ p).
Proof.
  intros res sents n d. subst res.
  unfold split_turboscribe_segment_by_speakers.
  set (ovl := filter _ speaker_segs).
  assert (Hovl : forall x, In x (sort_asc start ovl) <->
            In x speaker_segs
            /\ 0 < calculate_overlap (start x) (end_ x) (start text_seg) (end_ text_seg)).
  { intros x. unfold sort_asc. rewrite sort_desc_In. unfold ovl. rewrite filter_In.
    rewrite Qltb_iff. reflexivity. }
  destruct (sort_asc start ovl) as [|first ovs] eqn:Hs; [left; reflexivity|].
  destruct (forallb _ _); [left; reflexivity|].
  fold sents. fold n. fold d.
  destruct (n <=? 1)%nat; [left; reflexivity|].
  destruct (sentence_segments (first :: ovs) d (start text_seg) sents) as [|r rs] eqn:Hseg;
    [left; reflexivity|].
  right. rewrite <- Hseg. intros p Hp.
  destruct (sentence_segments_In _ _ _ _ _ Hp) as (H1 & H2 & H3).
  split; [exact H1|]. split; [exact H3|].
  destruct (best_speaker_max _ _ _ _ H2) as (x & Hx & Hsx & Hpos & Hmax).
  apply Hovl in Hx as Hx'. destruct Hx' as [Hxs Hxt].
  exists x. split; [exact Hxs|]. split; [exact Hsx|]. split; [exact Hxt|].
  split; [exact Hpos|].
  intros spk' Hs' Ht'. apply Hmax, Hovl. split; assumption.
Qed.

Lemma lstrip_forallb_space (s : str) : forallb is_space (lstrip s) = forallb is_space s.
Proof.
  induction s as [|c t IH]; [reflexivity|].
  unfold lstrip; fold lstrip. simpl. destruct (is_space c) eqn:E; [exact IH|].
  simpl. rewrite E. reflexivity.
Qed.

Lemma lstrip_all_space (s : str) : forallb is_space s = true -> lstrip s = [].
Proof.
  induction s as [|c t IH]; intros H; [reflexivity|].
  simpl in H. apply andb_true_iff in H as [Hc Ht].
  unfold lstrip; fold lstrip. simpl. rewrite Hc. apply IH, Ht.
Qed.

Lemma forallb_rev_space (s : str) : forallb is_space (rev s) = forallb is_space s.
Proof.
  induction s as [|c t IH]; [reflexivity|].
  simpl. rewrite forallb_app, IH. simpl. rewrite andb_true_r, andb_comm. reflexivity.
Qed.

Lemma strip_forallb_space (s : str) : forallb is_space (strip s) = forallb is_space s.
Proof.
  unfold strip, rstrip.
  rewrite forallb_rev_space, lstrip_forallb_space, forallb_rev_space, lstrip_forallb_space.
  reflexivity.
Qed.

Lemma strip_nil_iff (s : str) : strip s = [] <-> forallb is_space s = true.
Proof.
  unfold strip, rstrip. split.
  - intros H. rewrite <- strip_forallb_space. unfold strip, rstrip. rewrite H. reflexivity.
  - intros H. rewrite (lstrip_all_space s H). reflexivity.
Qed.

Lemma sentence_break_head (b : str) :
  is_sentence_break b = true -> exists c t, b = c :: t /\ is_terminator c = true.
Proof.
  destruct b as [|c t]; [discriminate|].
  destruct (is_terminator c) eqn:E; [eauto|].
  unfold is_sentence_break, re_match, p_bind at 1.
  change (p_sat is_terminator (c :: t)) with (if is_terminator c then [(c, t)] else []).
  rewrite E. discriminate.
Qed.

Lemma terminator_not_space (c : ascii) : is_terminator c = true -> is_space c = false.
Proof.
  unfold is_terminator. intros H.
  repeat (apply orb_true_iff in H as [H|H]); apply ascii_eqb_eq in H; subst c; reflexivity.
Qed.

Lemma reconstruct_sentences_nonblank (l : list str) (s : str) :
  In s (reconstruct_sentences l) -> strip s <> [].
Proof.
  induction l as [l IH] using (induction_ltof1 _ (@List.length str)); unfold ltof in IH.
  destruct l as [|a [|b rest]]; simpl; [intros []| |].
  - destruct (Nat.eqb (List.length (strip a)) 0) eqn:E; [intros []|].
    intros [<-|[]] Hs. rewrite Hs in E. discriminate E.
  - destruct (is_sentence_break b) eqn:Eb.
    + intros [<-|Hin]; [|apply (IH rest); [simpl; lia|exact Hin]].
      rewrite strip_nil_iff, forallb_app. apply sentence_break_head in Eb as (c & t & -> & Hc).
      assert (Hb : forallb is_space (strip (c :: t)) = false).
      { rewrite strip_forallb_space. simpl. rewrite terminator_not_space by exact Hc.
        reflexivity. }
      rewrite Hb, andb_false_r. discriminate.
    + destruct (Nat.eqb (List.length (strip a)) 0) eqn:E.
      * apply (IH (b :: rest)). simpl. lia.
      * intros [<-|Hin]; [|apply (IH (b :: rest)); [simpl; lia|exact Hin]].
        intros Hs. rewrite Hs in E. discriminate E.
Qed.

(** [split_sentences] never yields a blank sentence. *)
Theorem split_sentences_nonblank (t : str) :
  Forall (fun s => strip s <> []) (split_sentences t).
Proof.
  apply Forall_forall. intros s Hs. exact (reconstruct_sentences_nonblank _ _ Hs).
Qed.

Lemma sentence_segments_text (ovl : list VTTSegment) (d cur : Q) (sents : list str)
    (p : VTTSegment) :
  In p (sentence_segments ovl d cur sents) -> exists s, In s sents /\ text p = strip s.
Proof.
  revert cur; induction sents as [|s ss IH]; intros cur H; [destruct H|].
  simpl in H. destruct (best_speaker ovl cur (cur + d)) as [[|c cs]|].
  - destruct (IH _ H) as (s' & H1 & H2). exists s'. split; [right|]; assumption.
  - destruct H as [<-|H].
    + exists s. split; [left|]; reflexivity.
    + destruct (IH _ H) as (s' & H1 & H2). exists s'. split; [right|]; assumption.
  - destruct (IH _ H) as (s' & H1 & H2). exists s'. split; [right|]; assumption.
Qed.

(** When the splitter does split a segment, every piece carries the
    stripped, non-empty text of one sentence of the input text. *)
Theorem split_turboscribe_segment_texts (text_seg : VTTSegment)
    (speaker_segs : list VTTSegment) :
  let res := split_turboscribe_segment_by_speakers text_seg speaker_segs in
  res = [text_seg] \/
  Forall (fun p => text p <> []
                   /\ exists s, In s (split_sentences (text text_seg)) /\ text p = strip s) res.
Proof.
  intros res. subst res. unfold split_turboscribe_segment_by_speakers.
  destruct (sort_asc start _) as [|first ovs]; [left; reflexivity|].
  destruct (forallb _ _); [left; reflexivity|].
  destruct (_ <=? 1)%nat; [left; reflexivity|].
  match goal with
  | |- context[match sentence_segments ?o ?d ?c ?ss with [] => _ | _ :: _ => _ end] =>
      destruct (sentence_segments o d c ss) as [|r rs] eqn:Hseg
  end; [left; reflexivity|].
  right. rewrite <- Hseg. apply Forall_forall. intros p Hp.
  destruct (sentence_segments_text _ _ _ _ _ Hp) as (s & Hs & Ht).
  split; [|exists s; split; assumption].
  rewrite Ht. exact (reconstruct_sentences_nonblank _ _ Hs).
Qed.

(* ------------------------------------------------------------------ *)
(** ** Arbitration oracle adapter *)

(** An oracle answer naming one of the candidates is returned as is: its
    confidence is not clamped or checked, and the call is counted. *)
Theorem ask_llm_valid_answer_passthrough (text_seg : VTTSegment)
    (cands : list CandidateEntry) (context_before : list AlignedSegment)
    (context_after : list VTTSegment) (oracle : Oracle) (llm_stats : option LLMStats)
    (spk : str) (conf : option Q) (rsn : option str) :
  oracle (mkOracleRequest text_seg cands context_before context_after)
    = Reply (Some (mkOracleJson (Some spk) conf rsn)) ->
  In spk (map ce_speaker cands) ->
  ask_llm_for_speaker true text_seg cands context_before context_after (Some oracle) llm_stats
  = Some (mkLLMResult spk conf (option_map R_oracle rsn),
          option_map bump_actual_calls llm_stats).
Proof.
  intros Ho Hin. unfold ask_llm_for_speaker. rewrite Ho.
  apply existsb_str_eqb_In in Hin. rewrite Hin. reflexivity.
Qed.


Lemma ask_llm_valid_answer_passthrough_witness :
  five_confidence_oracle (mkOracleRequest dominant_text
     [Real (mkCandidate (S_ "Zed") 1 1 1 false)] [] [])
    = Reply (Some (mkOracleJson (Some (S_ "Zed")) (Some 5) None))
  /\ In (S_ "Zed") (map ce_speaker [Real (mkCandidate (S_ "Zed") 1 1 1 false)])
  /\ ask_llm_for_speaker true dominant_text [Real (mkCandidate (S_ "Zed") 1 1 1 false)] [] []
       (Some five_confidence_oracle) None
     = Some (mkLLMResult (S_ "Zed") (Some 5) None, None).
Proof.
  assert (H1 : five_confidence_oracle (mkOracleRequest dominant_text
                 [Real (mkCandidate (S_ "Zed") 1 1 1 false)] [] [])
               = Reply (Some (mkOracleJson (Some (S_ "Zed")) (Some 5) None))) by reflexivity.
  assert (H2 : In (S_ "Zed") (map ce_speaker [Real (mkCandidate (S_ "Zed") 1 1 1 false)]))
    by (left; reflexivity).
  split; [exact H1|]. split; [exact H2|].
  exact (ask_llm_valid_answer_passthrough dominant_text _ [] [] five_confidence_oracle None
           (S_ "Zed") (Some 5) None H1 H2).
Defined.
